(** * XCM Lite: admission path, relay loop and execution engine

    A shallow embedding of the Rust service [xcm_lite]:
    - [src/domain/message.rs]   envelopes, instructions, [validate];
    - [src/domain/errors.rs]    validation error codes;
    - [src/crypto.rs]           [KeyRegistry::verify_signature];
    - [src/state.rs]            shared state, message records and statuses;
    - [src/processor/mod.rs]    [submit_message], [run_relay_loop],
                                [process_single_message];
    - [src/execution/mod.rs]    [DefaultExecutionEngine::execute].

    Rust [HashMap]s are stdpp [gmap]s, [u32] chain ids and [u128] amounts
    are [N] and [Z] with their ranges written out, Rust [String]s are
    Stdlib [string]s (ASCII), byte slices are [list Byte.byte]. *)

From stdpp Require Import gmap strings list.
From Stdlib Require Import Strings.String Strings.Ascii ZArith.

Open Scope string_scope.

(** ** Rust's [Result] *)

Inductive result (A E : Type) : Type :=
| Ok (a : A)
| Err (e : E).
Arguments Ok {A E} a.
Arguments Err {A E} e.

(** ** Formatting helpers ([format!] of integers, [trim], [to_uppercase]) *)

Fixpoint uint_to_string (d : Decimal.uint) : string :=
  match d with
  | Decimal.Nil => ""
  | Decimal.D0 d => String "0" (uint_to_string d)
  | Decimal.D1 d => String "1" (uint_to_string d)
  | Decimal.D2 d => String "2" (uint_to_string d)
  | Decimal.D3 d => String "3" (uint_to_string d)
  | Decimal.D4 d => String "4" (uint_to_string d)
  | Decimal.D5 d => String "5" (uint_to_string d)
  | Decimal.D6 d => String "6" (uint_to_string d)
  | Decimal.D7 d => String "7" (uint_to_string d)
  | Decimal.D8 d => String "8" (uint_to_string d)
  | Decimal.D9 d => String "9" (uint_to_string d)
  end.

(** [Display] of an unsigned integer ([u32], [u128]): decimal digits. *)
Definition fmt_N (n : N) : string := uint_to_string (N.to_uint n).
(** [Display] of a [usize] index or length. *)
Definition fmt_nat (n : nat) : string := uint_to_string (Nat.to_uint n).
Definition fmt_Z (z : Z) : string := fmt_N (Z.to_N z).

(** [char::is_whitespace] restricted to ASCII: tab, LF, VT, FF, CR, space. *)
Definition is_whitespace (c : ascii) : bool :=
  let n := nat_of_ascii c in
  (Nat.eqb n 32 || (Nat.leb 9 n && Nat.leb n 13))%bool.

Fixpoint trim_start (s : string) : string :=
  match s with
  | EmptyString => EmptyString
  | String c s' => if is_whitespace c then trim_start s' else s
  end.

Fixpoint rev_string (s : string) : string :=
  match s with
  | EmptyString => EmptyString
  | String c s' => (rev_string s' ++ String c EmptyString)
  end.

(** [str::trim] *)
Definition trim (s : string) : string :=
  rev_string (trim_start (rev_string (trim_start s))).

(** [str::is_empty] *)
Definition is_empty (s : string) : bool :=
  match s with EmptyString => true | _ => false end.

(** [char::to_ascii_uppercase]; [str::to_uppercase] on ASCII text. *)
Definition to_upper_char (c : ascii) : ascii :=
  let n := nat_of_ascii c in
  if (Nat.leb 97 n && Nat.leb n 122)%bool then ascii_of_nat (n - 32) else c.

Fixpoint to_uppercase (s : string) : string :=
  match s with
  | EmptyString => EmptyString
  | String c s' => String (to_upper_char c) (to_uppercase s')
  end.

(** ** [domain/errors.rs] *)

Inductive XcmErrorCode :=
| InvalidPayload
| InvalidSignatureCode
| VersionMismatch
| UnsupportedInstruction.

Record MessageValidationError := {
  code : XcmErrorCode;
  detail : string;
}.

Definition invalid_payload (d : string) : MessageValidationError :=
  {| code := InvalidPayload; detail := d |}.

(** ** [domain/message.rs] *)

Inductive XcmVersion := V3 | V4.

Definition is_supported (v : XcmVersion) (configured : string) : bool :=
  let normalized := to_uppercase (trim configured) in
  match v with
  | V3 => String.eqb normalized "V3"
  | V4 => String.eqb normalized "V4"
  end.

(** [impl Display for XcmVersion] *)
Definition fmt_version (v : XcmVersion) : string :=
  match v with V3 => "V3" | V4 => "V4" end.

(** [amount: u128] is a [Z] in [0, 2^128). *)
Record TransferReserveAsset := {
  asset : string;
  amount : Z;
  beneficiary : string;
}.

Record Transact := {
  call_data : string;
  weight : option Z;
}.

Record QueryResponse := {
  query_id : string;
  response : string;
}.

Inductive Instruction :=
| ITransferReserveAsset (data : TransferReserveAsset)
| ITransact (data : Transact)
| IQueryResponse (data : QueryResponse).

Record MessageEnvelope := {
  message_id : option string;
  sender_para : N;
  dest_para : N;
  xcm_version : XcmVersion;
  instructions : list Instruction;
  signature : option string;
}.

Definition validate_transfer (t : TransferReserveAsset) : result unit MessageValidationError :=
  if is_empty (trim (asset t)) then Err (invalid_payload "asset identifier must be provided")
  else if Z.eqb (amount t) 0 then Err (invalid_payload "transfer amount must be greater than zero")
  else if is_empty (trim (beneficiary t)) then Err (invalid_payload "beneficiary must be provided")
  else Ok tt.

Definition validate_transact (t : Transact) : result unit MessageValidationError :=
  if is_empty (trim (call_data t)) then Err (invalid_payload "call_data must be provided")
  else Ok tt.

Definition validate_query (q : QueryResponse) : result unit MessageValidationError :=
  if is_empty (trim (query_id q)) then Err (invalid_payload "query_id must be provided")
  else if is_empty (trim (response q)) then Err (invalid_payload "response must be provided")
  else Ok tt.

(** [Vec::is_empty] *)
Definition vec_is_empty {A} (l : list A) : bool :=
  match l with [] => true | _ => false end.

(** [Instruction::validate] *)
Definition validate_instruction (i : Instruction) : result unit MessageValidationError :=
  match i with
  | ITransferReserveAsset d => validate_transfer d
  | ITransact d => validate_transact d
  | IQueryResponse d => validate_query d
  end.

(** The [for (idx, instruction) in ...enumerate()] loop with its [?]. *)
Fixpoint validate_instructions (idx : nat) (l : list Instruction)
  : result unit MessageValidationError :=
  match l with
  | [] => Ok tt
  | i :: rest =>
      match validate_instruction i with
      | Err err =>
          Err (invalid_payload ("instruction " ++ fmt_nat idx ++ " invalid: " ++ detail err))
      | Ok _ => validate_instructions (S idx) rest
      end
  end.

(** [MessageEnvelope::validate] *)
Definition validate (env : MessageEnvelope) (configured_version : string)
  : result unit MessageValidationError :=
  if (N.eqb (sender_para env) 0 || N.eqb (dest_para env) 0)%bool then
    Err (invalid_payload "sender and destination parachain IDs must be non-zero")
  else if N.eqb (sender_para env) (dest_para env) then
    Err (invalid_payload "sender and destination parachain IDs must differ")
  else if vec_is_empty (instructions env) then
    Err (invalid_payload "at least one instruction is required")
  else if negb (is_supported (xcm_version env) configured_version) then
    Err {| code := VersionMismatch;
           detail := "message version " ++ fmt_version (xcm_version env)
                     ++ " mismatches configured version " ++ configured_version |}
  else validate_instructions 0 (instructions env).

(** ** [crypto.rs] *)

Inductive CryptoError :=
| UnknownParachain (para_id : N)
| InvalidSignature (msg : string)
| InvalidKey (para_id : N) (source : string).

(** The [ed25519_dalek::Verifier] trait of a verifying key: [Ok] when the
    64-byte signature is valid for the message, else the library's error
    text. The primitive itself is abstract: every result below holds for
    any instance. *)
Class Verifier (Key : Type) :=
  verify : Key -> list Byte.byte -> list Byte.byte -> result unit string.

Record KeyRegistry (Key : Type) := { inner : gmap N Key }.
Arguments inner {Key} _.

(** [signature_from_bytes] *)
Definition signature_from_bytes (bytes : list Byte.byte) : result (list Byte.byte) string :=
  if negb (Nat.eqb (List.length bytes) 64) then
    Err ("expected 64-byte signature, received " ++ fmt_nat (List.length bytes) ++ " bytes")
  else Ok bytes.

(** [KeyRegistry::verify_signature] *)
Definition verify_signature {Key} `{Verifier Key} (reg : KeyRegistry Key) (para_id : N)
    (message signature_bytes : list Byte.byte) : result unit CryptoError :=
  match inner reg !! para_id with
  | None => Err (UnknownParachain para_id)
  | Some keypair =>
      match signature_from_bytes signature_bytes with
      | Err err => Err (InvalidSignature err)
      | Ok sig =>
          match verify keypair message sig with
          | Ok _ => Ok tt
          | Err err => Err (InvalidSignature ("signature verification failed: " ++ err))
          end
      end
  end.

(** ** [state.rs] *)

(** [std::sync::RwLock]: the data and the poison flag. [write()] fails
    on a poisoned lock. *)
Record RwLock (A : Type) := { poisoned : bool; data : A }.
Arguments poisoned {A} _.
Arguments data {A} _.

Definition lock_write {A} (l : RwLock A) : result A unit :=
  if poisoned l then Err tt else Ok (data l).

Definition lock_store {A} (l : RwLock A) (a : A) : RwLock A :=
  {| poisoned := poisoned l; data := a |}.

Record ParachainState := {
  balances : gmap string Z;
  logs : list string;
}.

Inductive MessageStatus :=
| Pending
| Relayed
| Executed (outcome : option string)
| Failed (error : string).

Record MessageRecord := {
  status : MessageStatus;
  hops : list N;
}.

Record ServiceState := {
  parachains : RwLock (gmap N ParachainState);
  messages : RwLock (gmap string MessageRecord);
}.

Definition set_messages (st : ServiceState) (m : gmap string MessageRecord) : ServiceState :=
  {| parachains := parachains st; messages := lock_store (messages st) m |}.

Definition set_parachains (st : ServiceState) (p : gmap N ParachainState) : ServiceState :=
  {| parachains := lock_store (parachains st) p; messages := messages st |}.

(** ** [processor/mod.rs] *)

(** [const MAX_HOPS: usize = 3] *)
Definition MAX_HOPS : nat := 3.

Record QueuedMessage := {
  envelope : MessageEnvelope;
  raw_payload : list Byte.byte;
}.

(** The process around the processor: the shared [ServiceState] (the
    [Arc] held by the processor, the relay loop and the engine), the
    [mpsc] channel's buffered items in FIFO order, whether its receiver is
    gone, and the source of fresh [Uuid::new_v4] values. *)
Record World := {
  state : ServiceState;
  channel : list QueuedMessage;
  receiver_dropped : bool;
  uuid_seed : nat;
}.

Definition set_state (w : World) (st : ServiceState) : World :=
  {| state := st; channel := channel w; receiver_dropped := receiver_dropped w;
     uuid_seed := uuid_seed w |}.

Definition set_channel (w : World) (c : list QueuedMessage) : World :=
  {| state := state w; channel := c; receiver_dropped := receiver_dropped w;
     uuid_seed := uuid_seed w |}.

(** [Uuid::new_v4().to_string()]: a fresh identifier on each call (the
    random v4 generator is modelled by a counter, so two calls never
    return the same string). *)
Definition uuid_string (n : nat) : string := "uuid-" ++ fmt_nat n.

Definition uuid_new_v4 (w : World) : string * World :=
  (uuid_string (uuid_seed w),
   {| state := state w; channel := channel w; receiver_dropped := receiver_dropped w;
      uuid_seed := S (uuid_seed w) |}).

(** [id.clone().unwrap_or_else(|| Uuid::new_v4().to_string())] *)
Definition resolve_message_id (id : option string) (w : World) : string * World :=
  match id with
  | Some s => (s, w)
  | None => uuid_new_v4 w
  end.

Inductive ProcessorError :=
| Validation (e : MessageValidationError)
| Signature (e : CryptoError)
| ChannelClosed
| StatePoisoned.

(** [MessageProcessor]: its [state] handle is [state] of the [World] and
    its [sender] is the [World]'s channel. *)
Record MessageProcessor (Key : Type) := {
  keys : KeyRegistry Key;
  configured_version : string;
}.
Arguments keys {Key} _.
Arguments configured_version {Key} _.

(** [Sender::send]: fails when the receiver is gone, else appends. (The
    wait for capacity of the bounded channel is scheduling and is not
    modelled.) *)
Definition channel_send (q : QueuedMessage) (w : World) : result unit unit * World :=
  if receiver_dropped w then (Err tt, w) else (Ok tt, set_channel w (app (channel w) [q])).

(** [MessageProcessor::submit_message] *)
Definition submit_message {Key} `{Verifier Key} (p : MessageProcessor Key)
    (env : MessageEnvelope) (raw : list Byte.byte) (sig : list Byte.byte) (w : World)
  : result unit ProcessorError * World :=
  match validate env (configured_version p) with
  | Err e => (Err (Validation e), w)
  | Ok _ =>
      match verify_signature (keys p) (sender_para env) raw sig with
      | Err e => (Err (Signature e), w)
      | Ok _ =>
          let (mid, w1) := resolve_message_id (message_id env) w in
          match lock_write (messages (state w1)) with
          | Err _ => (Err StatePoisoned, w1)
          | Ok msgs =>
              let w2 := set_state w1 (set_messages (state w1)
                          (<[mid := {| status := Pending; hops := [sender_para env] |}]> msgs)) in
              match channel_send {| envelope := env; raw_payload := raw |} w2 with
              | (Err _, w3) => (Err ChannelClosed, w3)
              | (Ok _, w3) => (Ok tt, w3)
              end
          end
      end
  end.

Inductive RelayError :=
| UnknownDestination (para_id : N)
| RelayStatePoisoned
| HopLimitExceeded.

(** [impl Display for RelayError] (the [#[error]] attributes) *)
Definition relay_error_to_string (e : RelayError) : string :=
  match e with
  | UnknownDestination id => "destination parachain " ++ fmt_N id ++ " not found"
  | RelayStatePoisoned => "state lock poisoned"
  | HopLimitExceeded => "maximum hop count exceeded"
  end.

(** [process_single_message] *)
Definition process_single_message (w : World) (queued : QueuedMessage)
  : result unit RelayError * World :=
  let env := envelope queued in
  let hops_ := app (app [] [sender_para env]) [dest_para env] in
  if Nat.ltb MAX_HOPS (List.length hops_) then (Err HopLimitExceeded, w) else
  match lock_write (messages (state w)) with
  | Err _ => (Err RelayStatePoisoned, w)
  | Ok msgs =>
      let (mid, w1) := resolve_message_id (message_id env) w in
      let w2 :=
        match msgs !! mid with
        | Some record =>
            set_state w1 (set_messages (state w1)
              (<[mid := {| status := status record; hops := hops_ |}]> msgs))
        | None => w1
        end in
      match lock_write (parachains (state w2)) with
      | Err _ => (Err RelayStatePoisoned, w2)
      | Ok dest_state =>
          match dest_state !! dest_para env with
          | None => (Err (UnknownDestination (dest_para env)), w2)
          | Some parachain =>
              let parachain' :=
                {| balances := balances parachain;
                   logs := app (logs parachain)
                     ["Received message with " ++ fmt_nat (List.length (instructions env))
                      ++ " instructions"] |} in
              (Ok tt, set_state w2 (set_parachains (state w2)
                                      (<[dest_para env := parachain']> dest_state)))
          end
      end
  end.

(** [let new_status = match result { Ok(()) => Relayed, Err(err) => Failed {..} }] *)
Definition status_of_result (res : result unit RelayError) : MessageStatus :=
  match res with
  | Ok _ => Relayed
  | Err err => Failed (relay_error_to_string err)
  end.

(** One iteration of the [while let Some(queued) = receiver.recv().await]
    body of [run_relay_loop]. *)
Definition relay_iteration (w : World) (queued : QueuedMessage) : World :=
  let (mid, w1) := resolve_message_id (message_id (envelope queued)) w in
  let (res, w2) := process_single_message w1 queued in
  let new_status := status_of_result res in
  match lock_write (messages (state w2)) with
  | Err _ => w2
  | Ok msgs =>
      match msgs !! mid with
      | Some record =>
          set_state w2 (set_messages (state w2)
            (<[mid := {| status := new_status; hops := hops record |}]> msgs))
      | None =>
          set_state w2 (set_messages (state w2)
            (<[mid := {| status := new_status; hops := [] |}]> msgs))
      end
  end.

(** [Receiver::recv]: the oldest buffered item. *)
Definition channel_recv (w : World) : option (QueuedMessage * World) :=
  match channel w with
  | [] => None
  | q :: rest => Some (q, set_channel w rest)
  end.

(** [run_relay_loop], run for at most [fuel] received items (it would
    otherwise wait for the next one). *)
Fixpoint run_relay_loop (fuel : nat) (w : World) : World :=
  match fuel with
  | O => w
  | S f =>
      match channel_recv w with
      | None => w
      | Some (q, w') => run_relay_loop f (relay_iteration w' q)
      end
  end.

(** ** [api/mod.rs]: the status lookup behind [GET /status/:id] *)

Inductive ApiError :=
| ApiValidation (e : MessageValidationError)
| ApiProcessing (e : ProcessorError)
| NotFound.

Definition lock_read {A} (l : RwLock A) : result A unit := lock_write l.

(** [get_status] *)
Definition get_status (w : World) (id : string) : result MessageRecord ApiError :=
  match lock_read (messages (state w)) with
  | Err _ => Err (ApiProcessing StatePoisoned)
  | Ok guard =>
      match guard !! id with
      | Some r => Ok r
      | None => Err NotFound
      end
  end.

(** ** [execution/mod.rs] *)

(** [u128::MAX] *)
Definition U128_MAX : Z := 2 ^ 128 - 1.

(** [u128::saturating_add] *)
Definition saturating_add (a b : Z) : Z :=
  if Z.leb (a + b) U128_MAX then a + b else U128_MAX.

Record ExecutionOutcome := { outcome_logs : list string }.

(** [ExecutionOutcome::summary] *)
Definition summary (o : ExecutionOutcome) : option string :=
  if vec_is_empty (outcome_logs o) then None
  else Some (fmt_nat (List.length (outcome_logs o)) ++ " instructions applied").

Inductive ExecutionError :=
| ExecUnknownParachain (para_id : N)
| ExecStatePoisoned.

(** [apply_transfer]: [entry(..).or_insert(0)], then [saturating_add]. *)
Definition apply_transfer (ps : ParachainState) (transfer : TransferReserveAsset)
  : ParachainState :=
  let old := default 0%Z (balances ps !! beneficiary transfer) in
  let entry := saturating_add old (amount transfer) in
  {| balances := <[beneficiary transfer := entry]> (balances ps);
     logs := app (logs ps)
       ["Balance updated: " ++ beneficiary transfer ++ " => " ++ fmt_Z entry] |}.

(** [apply_transact] *)
Definition apply_transact (ps : ParachainState) (transact : Transact) : ParachainState :=
  {| balances := balances ps;
     logs := app (logs ps)
       ["Transact executed: call_data_len=" ++ fmt_nat (String.length (call_data transact))
        ++ ", weight=" ++ fmt_Z (default 0%Z (weight transact))] |}.

(** [apply_query] *)
Definition apply_query (ps : ParachainState) (r : QueryResponse) : ParachainState :=
  {| balances := balances ps;
     logs := app (logs ps)
       ["QueryResponse stored: id=" ++ query_id r ++ ", response=" ++ response r] |}.

(** One arm of the [for instruction in &message.instructions] loop of
    [execute]: the effect on the destination state and the outcome line. *)
Definition execute_instruction (ps : ParachainState) (i : Instruction)
  : ParachainState * string :=
  match i with
  | ITransferReserveAsset data =>
      (apply_transfer ps data,
       "TransferReserveAsset: " ++ fmt_Z (amount data) ++ " " ++ asset data
       ++ " to " ++ beneficiary data)
  | ITransact data =>
      (apply_transact ps data,
       "Transact: call_data=" ++ fmt_nat (String.length (call_data data))
       ++ " bytes, weight=" ++ fmt_Z (default 0%Z (weight data)))
  | IQueryResponse data =>
      (apply_query ps data,
       "QueryResponse: id=" ++ query_id data ++ ", response_length="
       ++ fmt_nat (String.length (response data)))
  end.

Fixpoint execute_instructions (ps : ParachainState) (l : list Instruction)
    (out : list string) : ParachainState * list string :=
  match l with
  | [] => (ps, out)
  | i :: rest =>
      let (ps', line) := execute_instruction ps i in
      execute_instructions ps' rest (app out [line])
  end.

(** [DefaultExecutionEngine::execute] over the engine's [ServiceState]. *)
Definition execute (st : ServiceState) (message : MessageEnvelope)
  : result ExecutionOutcome ExecutionError * ServiceState :=
  match lock_write (parachains st) with
  | Err _ => (Err ExecStatePoisoned, st)
  | Ok paras =>
      match paras !! dest_para message with
      | None => (Err (ExecUnknownParachain (dest_para message)), st)
      | Some dest_state =>
          let (dest_state', out) := execute_instructions dest_state (instructions message) [] in
          (Ok {| outcome_logs := out |},
           set_parachains st (<[dest_para message := dest_state']> paras))
      end
  end.

(** ** [config.rs] *)

Record ParachainKeyConfig := {
  key_para_id : N;
  seed_phrase : option string;
  secret_key : option string;
}.

(** [ParachainConfig { count, xcm_version, keys }] *)
Record ParachainConfig := {
  count : N;
  pc_xcm_version : string;
  pc_keys : list ParachainKeyConfig;
}.

(** [u32] arithmetic as compiled in release mode: wrap modulo [2^32]. *)
Definition u32_wrap (n : N) : N := N.modulo n (2 ^ 32).

(** [(0..n)] over [u32] *)
Definition range_N (n : N) : list N := map N.of_nat (seq 0 (N.to_nat n)).

(** [ParachainConfig::parachain_ids] *)
Definition parachain_ids (cfg : ParachainConfig) : list N :=
  if vec_is_empty (pc_keys cfg) then map (fun idx => u32_wrap (1000 + idx)) (range_N (count cfg))
  else map key_para_id (pc_keys cfg).

Inductive ConfigError :=
| ConfigInvalid (msg : string).

(** The [for key in &self.keys { if !seen.insert(key.para_id) ... }] loop:
    the first id already seen, if any. *)
Fixpoint first_duplicate (seen : gset N) (l : list ParachainKeyConfig) : option N :=
  match l with
  | [] => None
  | k :: rest =>
      if decide (key_para_id k ∈ seen) then Some (key_para_id k)
      else first_duplicate ({[key_para_id k]} ∪ seen) rest
  end.

(** [ParachainConfig::normalize] *)
Definition normalize (cfg : ParachainConfig) : result ParachainConfig ConfigError :=
  if negb (vec_is_empty (pc_keys cfg)) then
    match first_duplicate ∅ (pc_keys cfg) with
    | Some id =>
        Err (ConfigInvalid ("duplicate parachain id " ++ fmt_N id ++ " in key configuration"))
    | None =>
        Ok {| count := N.max (count cfg) (u32_wrap (N.of_nat (List.length (pc_keys cfg))));
              pc_xcm_version := pc_xcm_version cfg;
              pc_keys := pc_keys cfg |}
    end
  else Ok cfg.

(** ** [state.rs]: [ServiceState::initialize] and [parachain_count] *)

Inductive StateInitError :=
| DuplicateParaId (para_id : N).

(** [ParachainState::default()] *)
Definition default_parachain : ParachainState := {| balances := ∅; logs := [] |}.

(** The [for para_id in config.parachain_ids()] loop of [initialize]:
    [insert] returning [Some] (the id was present) is an error. *)
Fixpoint insert_parachains (m : gmap N ParachainState) (ids : list N)
  : result (gmap N ParachainState) StateInitError :=
  match ids with
  | [] => Ok m
  | id :: rest =>
      match m !! id with
      | Some _ => Err (DuplicateParaId id)
      | None => insert_parachains (<[id := default_parachain]> m) rest
      end
  end.

(** [ServiceState::initialize] *)
Definition initialize (cfg : ParachainConfig) : result ServiceState StateInitError :=
  match insert_parachains ∅ (parachain_ids cfg) with
  | Err e => Err e
  | Ok m => Ok {| parachains := {| poisoned := false; data := m |};
                  messages := {| poisoned := false; data := ∅ |} |}
  end.

(** [ServiceState::parachain_count]: [read().map(|m| m.len()).unwrap_or(0)] *)
Definition parachain_count (st : ServiceState) : nat :=
  match lock_read (parachains st) with
  | Ok m => size m
  | Err _ => 0
  end.

(** ** [domain/message.rs]: [impl FromStr for XcmVersion] *)

Definition version_mismatch (d : string) : MessageValidationError :=
  {| code := VersionMismatch; detail := d |}.

Definition xcm_version_from_str (s : string) : result XcmVersion MessageValidationError :=
  let other := to_uppercase (trim s) in
  if String.eqb other "V3" then Ok V3
  else if String.eqb other "V4" then Ok V4
  else Err (version_mismatch ("unsupported XCM version: " ++ other)).

(** ** [crypto.rs]: hex decoding and key construction *)

(** The [hex] crate's [FromHexError] and its [Display]; a [char] printed
    with [{:?}] is shown in single quotes (the escaping of quotes and
    control characters is not modelled). *)
Inductive FromHexError :=
| InvalidHexCharacter (c : ascii) (index : nat)
| OddLength
| InvalidStringLength.

Definition hex_error_to_string (e : FromHexError) : string :=
  match e with
  | InvalidHexCharacter c i =>
      "Invalid character '" ++ String c "" ++ "' at position " ++ fmt_nat i
  | OddLength => "Odd number of digits"
  | InvalidStringLength => "Invalid string length"
  end.

(** [hex]'s [val]: the value of one hex digit, either case. *)
Definition hex_val (c : ascii) : option nat :=
  let n := nat_of_ascii c in
  if (Nat.leb 65 n && Nat.leb n 70)%bool then Some (n - 55)
  else if (Nat.leb 97 n && Nat.leb n 102)%bool then Some (n - 87)
  else if (Nat.leb 48 n && Nat.leb n 57)%bool then Some (n - 48)
  else None.

(** [hi << 4 | lo] as a [u8] *)
Definition byte_of_nat (n : nat) : Byte.byte :=
  match Byte.of_nat n with Some b => b | None => Byte.x00 end.

(** The [chunks(2).enumerate()] loop of [hex::decode]: pair [i] starts at
    byte index [2 * i]. *)
Fixpoint decode_pairs (idx : nat) (s : string) : result (list Byte.byte) FromHexError :=
  match s with
  | EmptyString => Ok []
  | String _ EmptyString => Err OddLength
  | String a (String b rest) =>
      match hex_val a with
      | None => Err (InvalidHexCharacter a idx)
      | Some hi =>
          match hex_val b with
          | None => Err (InvalidHexCharacter b (S idx))
          | Some lo =>
              match decode_pairs (S (S idx)) rest with
              | Err e => Err e
              | Ok bs => Ok (byte_of_nat (hi * 16 + lo) :: bs)
              end
          end
      end
  end.

(** [hex::decode] *)
Definition hex_decode (s : string) : result (list Byte.byte) FromHexError :=
  if Nat.odd (String.length s) then Err OddLength else decode_pairs 0 s.

(** [hex::encode]: two lowercase digits per byte. *)
Definition hex_digit (n : nat) : ascii :=
  if Nat.ltb n 10 then ascii_of_nat (48 + n) else ascii_of_nat (87 + n).

Fixpoint hex_encode (bs : list Byte.byte) : string :=
  match bs with
  | [] => EmptyString
  | b :: rest =>
      String (hex_digit (Byte.to_nat b / 16))
        (String (hex_digit (Byte.to_nat b mod 16)) (hex_encode rest))
  end.

(** [str::trim_start_matches("0x")]: every leading ["0x"] is removed. *)
Fixpoint trim_start_0x (s : string) : string :=
  match s with
  | String a (String b rest) =>
      if (Ascii.eqb a "0" && Ascii.eqb b "x")%bool then trim_start_0x rest else s
  | _ => s
  end.

(** [decode_hex] *)
Definition decode_hex (input : string) : result (list Byte.byte) string :=
  let normalized := trim_start_0x (trim input) in
  match hex_decode normalized with
  | Err e => Err (hex_error_to_string e)
  | Ok bs => Ok bs
  end.

Inductive KeypairBuildError :=
| MissingSource
| ConflictingSources
| InvalidSecretKey (msg : string)
| SeedPhrase (msg : string)
| KeypairSignature (msg : string).

(** [impl Display for KeypairBuildError] *)
Definition keypair_error_to_string (e : KeypairBuildError) : string :=
  match e with
  | MissingSource => "secret key or seed phrase must be provided"
  | ConflictingSources => "secret key and seed phrase are both provided; pick one source"
  | InvalidSecretKey m => "failed to parse secret key: " ++ m
  | SeedPhrase m => "failed to derive key from seed phrase: " ++ m
  | KeypairSignature m => "failed to construct signing key: " ++ m
  end.

(** The primitives of [ed25519_dalek] and [sha2] that key construction
    calls: [SigningKey::from_bytes] on 32 bytes,
    [SigningKey::from_keypair_bytes] on 64 bytes (which checks the public
    half), and [Sha512::digest]. They are abstract: the results below hold
    for any instance. *)
Class SigningScheme (SigningKey : Type) := {
  signing_key_from_bytes : list Byte.byte -> SigningKey;
  signing_key_from_keypair_bytes : list Byte.byte -> result SigningKey string;
  sha512_digest : list Byte.byte -> list Byte.byte;
}.

Section KeyConstruction.
Context {SigningKey : Type} `{SigningScheme SigningKey}.

(** [signing_from_secret] *)
Definition signing_from_secret (secret : string) : result SigningKey KeypairBuildError :=
  match decode_hex secret with
  | Err e => Err (InvalidSecretKey e)
  | Ok decoded =>
      if Nat.eqb (List.length decoded) 32 then Ok (signing_key_from_bytes decoded)
      else if Nat.eqb (List.length decoded) 64 then
        match signing_key_from_keypair_bytes decoded with
        | Ok k => Ok k
        | Err e => Err (KeypairSignature e)
        end
      else Err (InvalidSecretKey ("expected 32 or 64 bytes, got "
                                  ++ fmt_nat (List.length decoded)))
  end.

(** [signing_from_seed_phrase]: the first 32 bytes of the SHA-512 digest
    of the phrase's bytes. *)
Definition signing_from_seed_phrase (seed : string) : result SigningKey KeypairBuildError :=
  if is_empty (trim seed) then Err (SeedPhrase "seed phrase cannot be empty")
  else Ok (signing_key_from_bytes (firstn 32 (sha512_digest (list_byte_of_string seed)))).

Record ParachainKeypair := {
  kp_para_id : N;
  signing_key : SigningKey;
}.

(** [ParachainKeypair::from_config_entry] *)
Definition from_config_entry (para_id : N) (entry : ParachainKeyConfig)
  : result ParachainKeypair KeypairBuildError :=
  match secret_key entry, seed_phrase entry with
  | Some _, Some _ => Err ConflictingSources
  | _, _ =>
      match
        match secret_key entry with
        | Some secret => signing_from_secret secret
        | None =>
            match seed_phrase entry with
            | Some seed => signing_from_seed_phrase seed
            | None => Err MissingSource
            end
        end
      with
      | Err e => Err e
      | Ok k => Ok {| kp_para_id := para_id; signing_key := k |}
      end
  end.

(** [ParachainKeypair::generate]: [OsRng] fills 32 fresh bytes; the
    [n]-th draw is [rng n]. *)
Definition generate (rng : nat -> list Byte.byte) (draw : nat) (para_id : N)
  : ParachainKeypair :=
  {| kp_para_id := para_id; signing_key := signing_key_from_bytes (rng draw) |}.

(** [config.keys.iter().find(|entry| entry.para_id == para_id)] *)
Definition find_key_config (keys_ : list ParachainKeyConfig) (para_id : N)
  : option ParachainKeyConfig :=
  List.find (fun entry => N.eqb (key_para_id entry) para_id) keys_.

(** The [for para_id in config.parachain_ids()] loop of
    [KeyRegistry::from_config], with the next draw of the generator. *)
Fixpoint build_keys (rng : nat -> list Byte.byte) (cfg : ParachainConfig) (draw : nat)
    (map_ : gmap N ParachainKeypair) (ids : list N)
  : result (gmap N ParachainKeypair) CryptoError :=
  match ids with
  | [] => Ok map_
  | para_id :: rest =>
      match find_key_config (pc_keys cfg) para_id with
      | Some entry =>
          match from_config_entry para_id entry with
          | Err source => Err (InvalidKey para_id (keypair_error_to_string source))
          | Ok kp => build_keys rng cfg draw (<[para_id := kp]> map_) rest
          end
      | None =>
          build_keys rng cfg (S draw) (<[para_id := generate rng draw para_id]> map_) rest
      end
  end.

(** [KeyRegistry::from_config] *)
Definition from_config (rng : nat -> list Byte.byte) (cfg : ParachainConfig)
  : result (KeyRegistry ParachainKeypair) CryptoError :=
  match build_keys rng cfg 0 ∅ (parachain_ids cfg) with
  | Err e => Err e
  | Ok m => Ok {| inner := m |}
  end.

End KeyConstruction.

Arguments ParachainKeypair SigningKey : clear implicits.

(** ** [api/mod.rs]: responses and the [POST /submit] handler *)

(** The status code of [impl IntoResponse for ApiError]. *)
Definition http_status (e : ApiError) : N :=
  match e with
  | ApiValidation err =>
      match code err with
      | InvalidPayload => 400
      | VersionMismatch => 409
      | UnsupportedInstruction => 400
      | InvalidSignatureCode => 401
      end
  | ApiProcessing detail =>
      match detail with
      | Validation _ => 400
      | Signature _ => 401
      | ChannelClosed => 503
      | StatePoisoned => 500
      end
  | NotFound => 404
  end.

(** [ErrorResponse::from]: the body's code and message. *)
Definition error_response (e : ApiError) : XcmErrorCode * string :=
  match e with
  | ApiValidation err => (code err, detail err)
  | ApiProcessing err =>
      match err with
      | Validation inner => (code inner, detail inner)
      | Signature _ => (InvalidSignatureCode, "signature verification failed")
      | ChannelClosed => (InvalidPayload, "relay channel unavailable")
      | StatePoisoned => (InvalidPayload, "internal state error")
      end
  | NotFound => (InvalidPayload, "message not found")
  end.

(** The [submit_message] handler: [serde_json::to_vec] is the parameter
    [serialize]; the signature field is decoded with [hex::decode]. *)
Definition api_submit_message {Key} `{Verifier Key}
    (serialize : MessageEnvelope -> result (list Byte.byte) string)
    (p : MessageProcessor Key) (payload : MessageEnvelope) (w : World)
  : result unit ApiError * World :=
  match serialize payload with
  | Err err => (Err (ApiValidation (invalid_payload ("serialization error: " ++ err))), w)
  | Ok raw_payload =>
      match signature payload with
      | None => (Err (ApiValidation (invalid_payload "signature is required")), w)
      | Some sig_hex =>
          match hex_decode sig_hex with
          | Err err =>
              (Err (ApiValidation (invalid_payload
                      ("signature decoding failed: " ++ hex_error_to_string err))), w)
          | Ok signature_bytes =>
              match submit_message p payload raw_payload signature_bytes w with
              | (Err e, w') => (Err (ApiProcessing e), w')
              | (Ok _, w') => (Ok tt, w')
              end
          end
      end
  end.

(** ** Predicates used in statements *)

(** No character of [s] is whitespace. *)
Fixpoint no_whitespace (s : string) : bool :=
  match s with
  | EmptyString => true
  | String c rest => (negb (is_whitespace c) && no_whitespace rest)%bool
  end.

(** Every character of [s] is whitespace (so [s.trim()] is empty). *)
Fixpoint all_whitespace (s : string) : bool :=
  match s with
  | EmptyString => true
  | String c rest => (is_whitespace c && all_whitespace rest)%bool
  end.

(** Some instruction of [l] transfers to [who]. *)
Fixpoint transfers_to (who : string) (l : list Instruction) : bool :=
  match l with
  | [] => false
  | ITransferReserveAsset t :: rest => (String.eqb (beneficiary t) who || transfers_to who rest)%bool
  | _ :: rest => transfers_to who rest
  end.

(** The sum of the amounts [l] transfers to [who]. *)
Fixpoint transferred_to (who : string) (l : list Instruction) : Z :=
  match l with
  | [] => 0%Z
  | ITransferReserveAsset t :: rest =>
      ((if String.eqb (beneficiary t) who then amount t else 0) + transferred_to who rest)%Z
  | _ :: rest => transferred_to who rest
  end.

(** Every transfer amount of [l] is a [u128], so not negative. *)
Fixpoint amounts_nonneg (l : list Instruction) : bool :=
  match l with
  | [] => true
  | ITransferReserveAsset t :: rest => (Z.leb 0 (amount t) && amounts_nonneg rest)%bool
  | _ :: rest => amounts_nonneg rest
  end.

(** The balances of every registered chain. *)
Definition ledger_balances (st : ServiceState) : gmap N (gmap string Z) :=
  balances <$> data (parachains st).

(** What the relay side keeps from [w] to [w']: no lock becomes poisoned,
    no message record disappears, no chain is added or removed and no
    balance changes, and the receiver is not dropped. *)
Definition relay_frame (w w' : World) : Prop :=
  poisoned (parachains (state w')) = poisoned (parachains (state w)) /\
  poisoned (messages (state w')) = poisoned (messages (state w)) /\
  (forall id, is_Some (data (messages (state w)) !! id) ->
              is_Some (data (messages (state w')) !! id)) /\
  ledger_balances (state w') = ledger_balances (state w) /\
  receiver_dropped w' = receiver_dropped w.

(** ** A concrete deployment used by the examples below

    Chains 1000 and 2000 registered, configured version ["V3"]. The toy
    verifying key accepts exactly the signatures starting with byte 0x01. *)

Module Demo.

#[global] Instance toy_verifier : Verifier N :=
  fun _ _ sig =>
    match sig with
    | Byte.x01 :: _ => Ok tt
    | _ => Err "signature error"
    end.

Definition good_sig : list Byte.byte := repeat Byte.x01 64.
Definition bad_sig : list Byte.byte := repeat Byte.x02 64.
Definition raw : list Byte.byte := [Byte.x7b; Byte.x7d].

Definition registry : KeyRegistry N :=
  {| inner := <[1000%N := 1000%N]> (<[2000%N := 2000%N]> ∅) |}.

Definition processor : MessageProcessor N :=
  {| keys := registry; configured_version := "V3" |}.

Definition empty_chain : ParachainState := {| balances := ∅; logs := [] |}.

Definition world0 : World :=
  {| state := {| parachains := {| poisoned := false;
                                  data := <[1000%N := empty_chain]> (<[2000%N := empty_chain]> ∅) |};
                 messages := {| poisoned := false; data := ∅ |} |};
     channel := [];
     receiver_dropped := false;
     uuid_seed := 0 |}.

Definition dot10 : Instruction :=
  ITransferReserveAsset {| asset := "DOT"; amount := 10; beneficiary := "acct-123" |}.

Definition env (id : option string) (dest : N) : MessageEnvelope :=
  {| message_id := id; sender_para := 1000; dest_para := dest; xcm_version := V3;
     instructions := [dot10]; signature := None |}.

Definition queued (id : option string) (dest : N) : QueuedMessage :=
  {| envelope := env id dest; raw_payload := raw |}.

(** Stand-ins for the signing primitives and for verification with a
    configured keypair, to run key construction on concrete input. *)
#[global] Instance toy_scheme : SigningScheme (list Byte.byte) := {|
  signing_key_from_bytes := fun bs => bs;
  signing_key_from_keypair_bytes := fun bs => Ok (firstn 32 bs);
  sha512_digest := fun _ => repeat Byte.x00 64;
|}.

#[global] Instance toy_keypair_verifier : Verifier (ParachainKeypair (list Byte.byte)) :=
  fun _ _ _ => Ok tt.

Definition default_config : ParachainConfig :=
  {| count := 3; pc_xcm_version := "V3"; pc_keys := [] |}.

Definition secret32 : list Byte.byte := repeat Byte.x07 32.

(** Two configured keys for chains 1000 and 2000 under [count = 1]. *)
Definition keyed_config : ParachainConfig :=
  {| count := 1; pc_xcm_version := "V3";
     pc_keys := [{| key_para_id := 1000; seed_phrase := Some "alpha"; secret_key := None |};
                 {| key_para_id := 2000; seed_phrase := None;
                    secret_key := Some ("0x" ++ hex_encode secret32) |}] |}.

Definition keyed_config_normalized : ParachainConfig :=
  {| count := 2; pc_xcm_version := "V3"; pc_keys := pc_keys keyed_config |}.

Definition demo_rng (n : nat) : list Byte.byte := repeat (byte_of_nat n) 32.

Definition demo_state : ServiceState :=
  match initialize default_config with
  | Ok st => st
  | Err _ => state world0
  end.

Definition demo_registry : KeyRegistry (ParachainKeypair (list Byte.byte)) :=
  match from_config demo_rng default_config with
  | Ok reg => reg
  | Err _ => {| inner := ∅ |}
  end.

(** [world0] with two messages waiting in the channel. *)
Definition world_queued : World :=
  set_channel world0 [queued (Some "m1") 2000; queued (Some "m2") 1000].

End Demo.

(** * Properties *)

(** ** Frame lemmas: minting an id touches only the uuid source *)

Lemma resolve_message_id_state (o : option string) (w : World) :
  state (snd (resolve_message_id o w)) = state w /\
  channel (snd (resolve_message_id o w)) = channel w /\
  receiver_dropped (snd (resolve_message_id o w)) = receiver_dropped w.
Proof. destruct o; simpl; auto. Qed.

Lemma lock_write_healthy {A} (l : RwLock A) :
  poisoned l = false -> lock_write l = Ok (data l).
Proof. unfold lock_write. intros ->. reflexivity. Qed.

(** No operation of the model sets a poison flag: [lock_store] keeps it. *)
Lemma lock_store_poisoned {A} (l : RwLock A) (a : A) :
  poisoned (lock_store l a) = poisoned l.
Proof. reflexivity. Qed.

(** ** C4: a bad signature is rejected before any bookkeeping *)

(** C4: for an envelope that passes validation and whose signature is
    rejected by [verify_signature] against the sender chain's key (wrong
    length, failed verification, or no key at all), [submit_message]
    returns that error as [Signature] and leaves the whole world
    unchanged: no [MessageRecord] under any id, no queued item, no uuid
    minted. For a registered key and a 64-byte signature that fails
    verification, the error is [InvalidSignature] with the verifier's
    message. *)
Theorem submit_bad_signature_no_record {Key} `{Verifier Key}
    (p : MessageProcessor Key) (env : MessageEnvelope) (raw sig : list Byte.byte)
    (w : World) (e : CryptoError) :
  validate env (configured_version p) = Ok tt ->
  verify_signature (keys p) (sender_para env) raw sig = Err e ->
  submit_message p env raw sig w = (Err (Signature e), w) /\
  (forall (k : Key) (err : string),
     inner (keys p) !! sender_para env = Some k ->
     List.length sig = 64 -> verify k raw sig = Err err ->
     e = InvalidSignature ("signature verification failed: " ++ err)).
Proof.
  intros Hval Hver. split.
  - unfold submit_message. by rewrite Hval, Hver.
  - intros k err Hkey Hlen Hv. revert Hver.
    unfold verify_signature. rewrite Hkey.
    unfold signature_from_bytes. rewrite Hlen. simpl.
    rewrite Hv. by intros [= <-].
Qed.

(** ** C7: admission registers a [Pending] record before enqueueing *)

(** C7: for an envelope that passes validation and signature
    verification (with the message map's lock healthy, see
    [lock_store_poisoned]), [submit_message] stores
    [{status: Pending, hops: [sender]}] under the resolved id whether or
    not the enqueue then succeeds, so [get_status] on that id returns the
    [Pending] record at once; the item is appended to the channel exactly
    when the receiver is alive. *)
Theorem submit_registers_pending {Key} `{Verifier Key}
    (p : MessageProcessor Key) (env : MessageEnvelope) (raw sig : list Byte.byte)
    (w : World) :
  validate env (configured_version p) = Ok tt ->
  verify_signature (keys p) (sender_para env) raw sig = Ok tt ->
  poisoned (messages (state w)) = false ->
  get_status (snd (submit_message p env raw sig w))
             (fst (resolve_message_id (message_id env) w))
    = Ok {| status := Pending; hops := [sender_para env] |} /\
  channel (snd (submit_message p env raw sig w)) =
    (if receiver_dropped w then channel w
     else app (channel w) [{| envelope := env; raw_payload := raw |}]).
Proof.
  intros Hval Hver Hpois.
  pose proof (resolve_message_id_state (message_id env) w) as [Hs [Hc Hr]].
  unfold submit_message. rewrite Hval, Hver.
  destruct (resolve_message_id (message_id env) w) as [mid w1]. simpl in *.
  rewrite Hs, (lock_write_healthy _ Hpois).
  unfold channel_send; simpl. rewrite Hr, <- Hc.
  destruct (receiver_dropped w); simpl;
    (split; [| reflexivity]);
    unfold get_status, lock_read, lock_write; simpl; rewrite Hpois;
    by rewrite lookup_insert_eq.
Qed.

(** ** C1: what the relay loop writes for a message that relays fine *)

(** C1 (as the code has it): for a dequeued message with a caller-supplied
    id, healthy locks and a registered destination, one iteration of
    [run_relay_loop] writes [Relayed] into the record under that id; the
    execution engine is not invoked, so no [Executed] status is written. *)
Theorem relay_success_writes_Relayed (w : World) (q : QueuedMessage) (id : string) :
  message_id (envelope q) = Some id ->
  poisoned (messages (state w)) = false ->
  poisoned (parachains (state w)) = false ->
  is_Some (data (parachains (state w)) !! dest_para (envelope q)) ->
  status <$> (data (messages (state (relay_iteration w q))) !! id) = Some Relayed.
Proof.
  intros Hid Hm Hp [ps Hps].
  unfold relay_iteration. rewrite Hid. simpl.
  unfold process_single_message. rewrite Hid. simpl.
  rewrite (lock_write_healthy _ Hm).
  destruct (data (messages (state w)) !! id) as [r|] eqn:Er; simpl;
    unfold lock_write; simpl; rewrite ?Hm, ?Hp; simpl; rewrite ?Hps; simpl;
    rewrite ?Hm, ?lookup_insert_eq, ?Er; simpl; by rewrite lookup_insert_eq.
Qed.

(** ** C2: what [submit_message] returns on success *)

(** C2 (as the code has it): for an envelope that passes validation and
    signature verification, with a healthy message map and a live relay
    receiver, [submit_message] returns [Ok(())]: the unit value, not the
    resolved message id. *)
Theorem submit_success_returns_unit {Key} `{Verifier Key}
    (p : MessageProcessor Key) (env : MessageEnvelope) (raw sig : list Byte.byte)
    (w : World) :
  validate env (configured_version p) = Ok tt ->
  verify_signature (keys p) (sender_para env) raw sig = Ok tt ->
  poisoned (messages (state w)) = false ->
  receiver_dropped w = false ->
  fst (submit_message p env raw sig w) = Ok tt.
Proof.
  intros Hval Hver Hpois Hr.
  pose proof (resolve_message_id_state (message_id env) w) as [Hs [_ Hr']].
  unfold submit_message. rewrite Hval, Hver.
  destruct (resolve_message_id (message_id env) w) as [mid w1]. simpl in *.
  rewrite Hs, (lock_write_healthy _ Hpois).
  unfold channel_send; simpl. rewrite Hr', Hr. reflexivity.
Qed.

(** ** C10: the hop-limit branch is dead *)

(** C10: [process_single_message] never fails with [HopLimitExceeded]
    (its hop path [[sender; dest]] has length 2 and [MAX_HOPS] is 3), so
    the status the relay loop derives from its result is never
    [Failed "maximum hop count exceeded"]. *)
Theorem hop_limit_unreachable (w : World) (q : QueuedMessage) :
  fst (process_single_message w q) <> Err HopLimitExceeded /\
  status_of_result (fst (process_single_message w q))
    <> Failed "maximum hop count exceeded".
Proof.
  unfold process_single_message. simpl.
  destruct (lock_write (messages (state w))) as [msgs|]; [| split; discriminate].
  destruct (resolve_message_id (message_id (envelope q)) w) as [mid w1].
  match goal with |- context [lock_write (parachains (state ?x))] =>
    destruct (lock_write (parachains (state x))) as [paras|] end;
    [| split; discriminate].
  destruct (paras !! dest_para (envelope q)); simpl; [split; discriminate |].
  split; [discriminate |].
  (* "destination ..." and "maximum ..." differ in their first letter *)
  unfold relay_error_to_string. intros Heq. inversion Heq.
Qed.

(** ** C3 and C8: envelopes without a caller-supplied id

    Admission, the relay loop and [process_single_message] each call
    [unwrap_or_else(|| Uuid::new_v4().to_string())] on the envelope's id,
    and [QueuedMessage] carries no id: for an id-less envelope the three
    calls mint three different ids. *)

(** C3 (as the code has it): an id-less envelope to a registered chain is
    admitted under ["uuid-0"]; after the relay loop has drained the queue
    the record under ["uuid-0"] is still [Pending] with hops [[1000]],
    and the relay outcome went to a fresh record under ["uuid-1"]. *)
Theorem id_less_message_stays_pending :
  let w1 := snd (submit_message Demo.processor (Demo.env None 2000) Demo.raw
                   Demo.good_sig Demo.world0) in
  let w2 := run_relay_loop 1 w1 in
  fst (resolve_message_id None Demo.world0) = "uuid-0" /\
  get_status w1 "uuid-0" = Ok {| status := Pending; hops := [1000%N] |} /\
  channel w2 = [] /\
  get_status w2 "uuid-0" = Ok {| status := Pending; hops := [1000%N] |} /\
  get_status w2 "uuid-1" = Ok {| status := Relayed; hops := [] |}.
Proof. vm_compute. repeat split. Qed.

(** C8 (as the code has it): an id-less envelope to the unregistered
    chain 9999: after relay its admission record ["uuid-0"] is still
    [Pending] with hops [[1000]]; the [Failed] status naming 9999 is
    written to a new record ["uuid-1"] whose hop path is empty. *)
Theorem id_less_unknown_destination_lost :
  let w1 := snd (submit_message Demo.processor (Demo.env None 9999) Demo.raw
                   Demo.good_sig Demo.world0) in
  let w2 := run_relay_loop 1 w1 in
  channel w2 = [] /\
  get_status w2 "uuid-0" = Ok {| status := Pending; hops := [1000%N] |} /\
  get_status w2 "uuid-1" =
    Ok {| status := Failed "destination parachain 9999 not found"; hops := [] |}.
Proof. vm_compute. repeat split. Qed.

(** With a caller-supplied id and an admitted record, an unknown
    destination is recorded as the [Failed] status naming the chain, with
    hop path [[sender; dest]]. *)
Lemma relay_unknown_destination_with_id (w : World) (q : QueuedMessage) (id : string)
    (r : MessageRecord) :
  message_id (envelope q) = Some id ->
  poisoned (messages (state w)) = false ->
  poisoned (parachains (state w)) = false ->
  data (messages (state w)) !! id = Some r ->
  data (parachains (state w)) !! dest_para (envelope q) = None ->
  data (messages (state (relay_iteration w q))) !! id =
    Some {| status := Failed ("destination parachain " ++ fmt_N (dest_para (envelope q))
                              ++ " not found");
            hops := [sender_para (envelope q); dest_para (envelope q)] |}.
Proof.
  intros Hid Hm Hp Hr Hd.
  unfold relay_iteration. rewrite Hid. simpl.
  unfold process_single_message. rewrite Hid. simpl.
  rewrite (lock_write_healthy _ Hm), Hr. simpl.
  unfold lock_write; simpl. rewrite Hp, Hd. simpl. rewrite Hm.
  rewrite lookup_insert_eq. simpl. rewrite insert_insert_eq.
  by rewrite lookup_insert_eq.
Qed.

(** ** C9: saturating transfers *)

Lemma saturating_add_min (a b : Z) : saturating_add a b = Z.min (a + b) U128_MAX.
Proof. unfold saturating_add. destruct (Z.leb_spec (a + b) U128_MAX); lia. Qed.

(** C9: the engine applies a [TransferReserveAsset] through
    [apply_transfer]; for an amount and a previous balance that are [u128]
    values, the beneficiary's new balance is [min(old + amount, u128::MAX)]
    with [old] = 0 when absent (it saturates, it does not wrap: it lies
    between the old balance and [u128::MAX]), and one log line
    ["Balance updated: <beneficiary> => <new balance>"] is appended. *)
Theorem transfer_saturating_balance (ps : ParachainState) (t : TransferReserveAsset) :
  (0 <= amount t <= U128_MAX)%Z ->
  (forall v, balances ps !! beneficiary t = Some v -> 0 <= v <= U128_MAX)%Z ->
  let old := default 0%Z (balances ps !! beneficiary t) in
  let new := Z.min (old + amount t) U128_MAX in
  fst (execute_instruction ps (ITransferReserveAsset t)) = apply_transfer ps t /\
  balances (apply_transfer ps t) !! beneficiary t = Some new /\
  (old <= new <= U128_MAX)%Z /\
  logs (apply_transfer ps t) =
    app (logs ps) ["Balance updated: " ++ beneficiary t ++ " => " ++ fmt_Z new].
Proof.
  intros Hamt Hbal old new.
  assert (Hold : (0 <= old <= U128_MAX)%Z).
  { subst old. destruct (balances ps !! beneficiary t) as [v|] eqn:E; simpl.
    - by apply Hbal.
    - unfold U128_MAX. lia. }
  split; [reflexivity |].
  unfold apply_transfer. simpl. rewrite saturating_add_min. fold old new.
  split; [by rewrite lookup_insert_eq |].
  split; [subst new; lia | reflexivity].
Qed.

(** ** C5 and C6: [MessageEnvelope::validate]

    [validate] checks, in this order: zero chain ids, equal chain ids, an
    empty instruction list, the version, then each instruction. *)

Lemma validate_instructions_app (pre : list Instruction) (l : list Instruction) (idx : nat) :
  Forall (fun j => validate_instruction j = Ok tt) pre ->
  validate_instructions idx (app pre l) = validate_instructions (idx + List.length pre) l.
Proof.
  revert idx. induction pre as [|j pre IH]; intros idx Hpre; simpl.
  - by rewrite Nat.add_0_r.
  - inversion Hpre as [|? ? Hj Hrest]; subst.
    rewrite Hj, IH by assumption. f_equal. lia.
Qed.

Lemma validate_structural_ok (env : MessageEnvelope) (cfg : string) :
  sender_para env <> 0%N -> dest_para env <> 0%N -> sender_para env <> dest_para env ->
  instructions env <> [] ->
  validate env cfg =
    if negb (is_supported (xcm_version env) cfg) then
      Err {| code := VersionMismatch;
             detail := "message version " ++ fmt_version (xcm_version env)
                       ++ " mismatches configured version " ++ cfg |}
    else validate_instructions 0 (instructions env).
Proof.
  intros Hs Hd Hsd Hi. unfold validate.
  rewrite (proj2 (N.eqb_neq _ _) Hs), (proj2 (N.eqb_neq _ _) Hd),
          (proj2 (N.eqb_neq _ _) Hsd). simpl.
  by destruct (instructions env).
Qed.

(** C5 (amended): for an envelope with non-zero, distinct chain ids and a
    non-empty instruction list whose version is not the configured one
    (the configured string trimmed and upper-cased, compared with ["V3"]
    or ["V4"]), [validate] returns [VersionMismatch], and [submit_message]
    returns that error as [Validation] with the world unchanged, whatever
    the key registry and the signature: authentication is not reached.
    Zero or equal chain ids and an empty instruction list are checked
    first: whatever the version, [validate] then returns [InvalidPayload]
    and [submit_message] returns it as [Validation], the world unchanged. *)
Theorem version_mismatch_short_circuits {Key} `{Verifier Key}
    (p : MessageProcessor Key) (env : MessageEnvelope) (raw sig : list Byte.byte)
    (w : World) :
  (sender_para env <> 0%N -> dest_para env <> 0%N -> sender_para env <> dest_para env ->
   instructions env <> [] ->
   is_supported (xcm_version env) (configured_version p) = false ->
   let e := {| code := VersionMismatch;
               detail := "message version " ++ fmt_version (xcm_version env)
                         ++ " mismatches configured version " ++ configured_version p |} in
   validate env (configured_version p) = Err e /\
   submit_message p env raw sig w = (Err (Validation e), w)) /\
  (sender_para env = 0%N \/ dest_para env = 0%N \/ sender_para env = dest_para env \/
   instructions env = [] ->
   exists d, validate env (configured_version p) = Err (invalid_payload d) /\
             submit_message p env raw sig w = (Err (Validation (invalid_payload d)), w)).
Proof.
  split.
  - intros Hs Hd Hsd Hi Hv e.
    assert (Hval : validate env (configured_version p) = Err e)
      by (rewrite validate_structural_ok, Hv by assumption; reflexivity).
    split; [exact Hval |].
    unfold submit_message. by rewrite Hval.
  - intros Hcase.
    assert (Hval : exists d, validate env (configured_version p) = Err (invalid_payload d)).
    { unfold validate.
      destruct (N.eqb_spec (sender_para env) 0) as [Hs|Hs]; [eexists; reflexivity |].
      destruct (N.eqb_spec (dest_para env) 0) as [Hd|Hd]; [eexists; reflexivity |].
      destruct (N.eqb_spec (sender_para env) (dest_para env)) as [Hsd|Hsd];
        [eexists; reflexivity |].
      simpl. destruct (instructions env) eqn:Ei; [eexists; reflexivity |].
      exfalso. destruct Hcase as [?|[?|[?|?]]]; [contradiction | contradiction
        | contradiction | discriminate]. }
    destruct Hval as [d Hval]. exists d. split; [exact Hval |].
    unfold submit_message. by rewrite Hval.
Qed.

(** C5 fails as stated: version ["V3"] against the configured ["V4"], but
    the sender id is 0, which [validate] reports first, as
    [InvalidPayload]. *)
Lemma version_mismatch_not_first :
  let e := {| message_id := None; sender_para := 0; dest_para := 2000; xcm_version := V3;
              instructions := [Demo.dot10]; signature := None |} in
  is_supported V3 "V4" = false /\
  validate e "V4" = Err (invalid_payload "sender and destination parachain IDs must be non-zero").
Proof. split; reflexivity. Qed.

(** C6 (amended): zero chain ids, equal chain ids or an empty instruction
    list make [validate] return [InvalidPayload]; an instruction with an
    empty asset, beneficiary, call data, query id or response, or a zero
    amount, fails its own check; and when the version is supported and
    the instructions before index [i] pass while instruction [i] fails,
    [validate] returns [InvalidPayload] with the detail
    ["instruction <i> invalid: <its own detail>"]. For those envelopes
    (non-zero, distinct ids, instructions present) a version mismatch is
    reported as [VersionMismatch] whatever the instructions are: none of
    them is checked. *)
Theorem validate_invalid_payload (env : MessageEnvelope) (cfg : string) :
  ((sender_para env = 0%N \/ dest_para env = 0%N \/ sender_para env = dest_para env \/
    instructions env = []) ->
   exists d, validate env cfg = Err (invalid_payload d)) /\
  (forall t : TransferReserveAsset,
     asset t = "" \/ amount t = 0%Z \/ beneficiary t = "" ->
     exists err, validate_instruction (ITransferReserveAsset t) = Err err /\
                 code err = InvalidPayload) /\
  (forall t : Transact, call_data t = "" ->
     exists err, validate_instruction (ITransact t) = Err err /\ code err = InvalidPayload) /\
  (forall r : QueryResponse, query_id r = "" \/ response r = "" ->
     exists err, validate_instruction (IQueryResponse r) = Err err /\
                 code err = InvalidPayload) /\
  (forall (pre : list Instruction) (i : Instruction) (post : list Instruction)
          (err : MessageValidationError),
     sender_para env <> 0%N -> dest_para env <> 0%N -> sender_para env <> dest_para env ->
     is_supported (xcm_version env) cfg = true ->
     instructions env = app pre (i :: post) ->
     Forall (fun j => validate_instruction j = Ok tt) pre ->
     validate_instruction i = Err err ->
     validate env cfg =
       Err (invalid_payload ("instruction " ++ fmt_nat (List.length pre) ++ " invalid: "
                             ++ detail err))) /\
  (sender_para env <> 0%N -> dest_para env <> 0%N -> sender_para env <> dest_para env ->
   instructions env <> [] ->
   is_supported (xcm_version env) cfg = false ->
   validate env cfg =
     Err {| code := VersionMismatch;
            detail := "message version " ++ fmt_version (xcm_version env)
                      ++ " mismatches configured version " ++ cfg |}).
Proof.
  split; [| split; [| split; [| split; [| split]]]].
  - intros Hcase. unfold validate.
    destruct (N.eqb_spec (sender_para env) 0) as [Hs|Hs];
      [eexists; reflexivity |].
    destruct (N.eqb_spec (dest_para env) 0) as [Hd|Hd];
      [eexists; reflexivity |].
    destruct (N.eqb_spec (sender_para env) (dest_para env)) as [Hsd|Hsd];
      [eexists; reflexivity |].
    simpl. destruct (instructions env) eqn:Ei; [eexists; reflexivity |].
    exfalso. destruct Hcase as [?|[?|[?|?]]]; [contradiction | contradiction
      | contradiction | discriminate].
  - intros t Ht. simpl. unfold validate_transfer.
    destruct (is_empty (trim (asset t))) eqn:Ea; [eexists; split; reflexivity |].
    destruct (Z.eqb_spec (amount t) 0) as [Hz|Hz]; [eexists; split; reflexivity |].
    destruct (is_empty (trim (beneficiary t))) eqn:Eb; [eexists; split; reflexivity |].
    exfalso. destruct Ht as [Ha|[Ha|Ha]].
    + rewrite Ha in Ea. discriminate.
    + contradiction.
    + rewrite Ha in Eb. discriminate.
  - intros t Ht. simpl. unfold validate_transact. rewrite Ht.
    eexists; split; reflexivity.
  - intros r Hr. simpl. unfold validate_query.
    destruct (is_empty (trim (query_id r))) eqn:Eq; [eexists; split; reflexivity |].
    destruct (is_empty (trim (response r))) eqn:Er; [eexists; split; reflexivity |].
    exfalso. destruct Hr as [H|H]; rewrite H in *; discriminate.
  - intros pre i post err Hs Hd Hsd Hv Hi Hpre Herr.
    rewrite validate_structural_ok by (try assumption; rewrite Hi; by destruct pre).
    rewrite Hv. simpl. rewrite Hi, validate_instructions_app by assumption.
    simpl. by rewrite Herr.
  - intros Hs Hd Hsd Hi Hv. by rewrite validate_structural_ok, Hv.
Qed.

(** C6 fails as stated: the only instruction has empty call data, but the
    envelope's version ["V4"] is not the configured ["V3"], and the
    version check comes before the instruction checks. *)
Lemma invalid_instruction_reported_as_version_mismatch :
  let e := {| message_id := None; sender_para := 1000; dest_para := 2000; xcm_version := V4;
              instructions := [ITransact {| call_data := ""; weight := None |}];
              signature := None |} in
  validate_instruction (ITransact {| call_data := ""; weight := None |}) =
    Err (invalid_payload "call_data must be provided") /\
  validate e "V3" =
    Err {| code := VersionMismatch;
           detail := "message version V4 mismatches configured version V3" |}.
Proof. split; reflexivity. Qed.

(** * Further properties of the service *)

(** ** Configuration and state initialisation *)

Lemma first_duplicate_None (seen : gset N) (l : list ParachainKeyConfig) :
  first_duplicate seen l = None <->
  NoDup (map key_para_id l) /\ (forall k, k ∈ l -> key_para_id k ∉ seen).
Proof.
  revert seen. induction l as [|k rest IH]; intros seen; simpl.
  - split; [intros _; split; [constructor | intros ? Hk; inversion Hk] | done].
  - case_decide as Hin.
    + split; [discriminate |].
      intros [_ Hall]. exfalso. apply (Hall k); [left | done].
    + rewrite IH, NoDup_cons. split.
      * intros [Hnd Hall]. split; [split |].
        -- intros Hm. apply list_elem_of_In, in_map_iff in Hm as [k' [Hid Hk']].
           apply (Hall k'); [by apply list_elem_of_In | set_solver].
        -- done.
        -- intros k' Hk'. inversion Hk'; subst; [done |].
           specialize (Hall k' ltac:(done)). set_solver.
      * intros [[Hnot Hnd] Hall]. split; [done |].
        intros k' Hk'. apply not_elem_of_union. split.
        -- rewrite not_elem_of_singleton. intros Heq. apply Hnot.
           rewrite <- Heq. apply list_elem_of_In, in_map, list_elem_of_In, Hk'.
        -- apply Hall. by right.
Qed.

Lemma insert_parachains_Ok (m m' : gmap N ParachainState) (ids : list N) :
  insert_parachains m ids = Ok m' ->
  NoDup ids /\ (forall id, id ∈ ids -> m !! id = None) /\
  (forall id, m' !! id = if decide (id ∈ ids) then Some default_parachain else m !! id) /\
  size m' = size m + List.length ids.
Proof.
  revert m. induction ids as [|id rest IH]; intros m H; simpl in H.
  - injection H as <-. split; [constructor |]. split; [intros ? Hi; inversion Hi |].
    split; [intros id; by rewrite decide_False by (intros Hi; inversion Hi) | simpl; lia].
  - destruct (m !! id) eqn:Em; [discriminate |].
    destruct (IH _ H) as [Hnd [Hfresh [Hlook Hsize]]].
    split; [| split; [| split]].
    + apply NoDup_cons. split; [| done].
      intros Hr. specialize (Hfresh id Hr). by rewrite lookup_insert_eq in Hfresh.
    + intros id' Hi. inversion Hi; subst; [done |].
      specialize (Hfresh id' ltac:(done)). by rewrite lookup_insert_ne in Hfresh
        by (intros ->; by rewrite lookup_insert_eq in Hfresh).
    + intros id'. rewrite Hlook. destruct (decide (id' = id)) as [->|Hne].
      * rewrite lookup_insert_eq, (decide_True (P := id ∈ id :: rest)) by constructor.
        by destruct (decide _).
      * rewrite lookup_insert_ne by congruence.
        destruct (decide (id' ∈ rest)) as [Hr|Hr].
        -- by rewrite decide_True by (right; done).
        -- rewrite decide_False; [done |]. intros Hc. inversion Hc; subst; done.
    + rewrite Hsize, map_size_insert_None by done. simpl. lia.
Qed.

Lemma insert_parachains_NoDup (m : gmap N ParachainState) (ids : list N) :
  NoDup ids -> (forall id, id ∈ ids -> m !! id = None) ->
  exists m', insert_parachains m ids = Ok m'.
Proof.
  revert m. induction ids as [|id rest IH]; intros m Hnd Hfresh; simpl.
  - by eexists.
  - rewrite (Hfresh id) by left. apply NoDup_cons in Hnd as [Hnot Hnd].
    apply IH; [done |]. intros id' Hi.
    rewrite lookup_insert_ne by (intros ->; contradiction).
    apply Hfresh. by right.
Qed.

Lemma initialize_correct (cfg : ParachainConfig) :
  ((exists st, initialize cfg = Ok st) <-> NoDup (parachain_ids cfg)) /\
  (forall st, initialize cfg = Ok st ->
     (forall id, data (parachains st) !! id =
                   if decide (id ∈ parachain_ids cfg) then Some default_parachain else None) /\
     data (messages st) = ∅ /\
     poisoned (parachains st) = false /\ poisoned (messages st) = false /\
     parachain_count st = List.length (parachain_ids cfg)).
Proof.
  unfold initialize. split.
  - split.
    + intros [st Hst]. destruct (insert_parachains ∅ _) as [m|] eqn:E; [| discriminate].
      by apply insert_parachains_Ok in E as [? _].
    + intros Hnd. destruct (insert_parachains_NoDup ∅ (parachain_ids cfg) Hnd) as [m Hm].
      { intros ? _. apply lookup_empty. }
      rewrite Hm. by eexists.
  - intros st Hst. destruct (insert_parachains ∅ _) as [m|] eqn:E; [| discriminate].
    injection Hst as <-. apply insert_parachains_Ok in E as [_ [_ [Hlook Hsize]]].
    split; [| split; [| split; [| split]]]; try reflexivity.
    + intros id. rewrite Hlook. by rewrite lookup_empty.
    + unfold parachain_count, lock_read, lock_write. simpl.
      rewrite Hsize, map_size_empty. lia.
Qed.

(** [ServiceState::initialize] succeeds exactly when [parachain_ids]
    has no repeated id; it then registers a default (empty) ledger for
    each of those ids and no other, starts with no message record and
    healthy locks, and [parachain_count] is the number of ids. *)
Theorem initialize_spec (cfg : ParachainConfig) :
  ((exists st, initialize cfg = Ok st) <-> NoDup (parachain_ids cfg)) /\
  (forall st, initialize cfg = Ok st ->
     (forall id, data (parachains st) !! id =
                   if decide (id ∈ parachain_ids cfg) then Some default_parachain else None) /\
     data (messages st) = ∅ /\
     poisoned (parachains st) = false /\ poisoned (messages st) = false /\
     parachain_count st = List.length (parachain_ids cfg)).
Proof. apply initialize_correct. Qed.

Lemma u32_wrap_1000 (i : N) :
  (i < 2 ^ 32)%N ->
  u32_wrap (1000 + i) = if N.ltb (1000 + i) (2 ^ 32) then (1000 + i)%N else (1000 + i - 2 ^ 32)%N.
Proof.
  intros Hi. unfold u32_wrap. destruct (N.ltb_spec (1000 + i) (2 ^ 32)).
  - by apply N.mod_small.
  - symmetry. apply (N.mod_unique _ _ 1); lia.
Qed.

Lemma range_N_elem (n x : N) : x ∈ range_N n <-> (x < n)%N.
Proof.
  unfold range_N. rewrite list_elem_of_In, in_map_iff. split.
  - intros [k [<- Hk]]. apply in_seq in Hk. lia.
  - intros Hx. exists (N.to_nat x). split; [lia |]. apply in_seq. lia.
Qed.

Lemma NoDup_map_range (f : N -> N) (n : N) :
  (forall i j, (i < n)%N -> (j < n)%N -> f i = f j -> i = j) ->
  NoDup (map f (range_N n)).
Proof.
  intros Hinj. apply NoDup_ListNoDup, NoDup_map_NoDup_ForallPairs.
  - intros a b Ha Hb. apply Hinj; apply range_N_elem, list_elem_of_In; done.
  - unfold range_N. apply NoDup_map_NoDup_ForallPairs; [| apply seq_NoDup].
    intros a b _ _. lia.
Qed.

(** With no key entries and a [count] small enough for [1_000 + idx] not
    to overflow, [parachain_ids] is [1000, 1001, ..., 1000 + count - 1]:
    [count] distinct ids. *)
Theorem parachain_ids_default (cfg : ParachainConfig) :
  pc_keys cfg = [] -> (count cfg <= 2 ^ 32 - 1000)%N ->
  (forall id, id ∈ parachain_ids cfg <-> (1000 <= id < 1000 + count cfg)%N) /\
  NoDup (parachain_ids cfg) /\
  List.length (parachain_ids cfg) = N.to_nat (count cfg).
Proof.
  intros Hk Hc. unfold parachain_ids. rewrite Hk. simpl.
  split; [| split].
  - intros id. rewrite list_elem_of_In, in_map_iff. split.
    + intros [i [<- Hi]]. apply list_elem_of_In, range_N_elem in Hi.
      rewrite u32_wrap_1000 by lia. destruct (N.ltb_spec (1000 + i) (2 ^ 32)); lia.
    + intros Hid. exists (id - 1000)%N.
      rewrite u32_wrap_1000 by lia. destruct (N.ltb_spec (1000 + (id - 1000)) (2 ^ 32));
        [| lia]. split; [lia |]. apply list_elem_of_In, range_N_elem. lia.
  - apply NoDup_map_range. intros i j Hi Hj.
    rewrite !u32_wrap_1000 by lia.
    destruct (N.ltb_spec (1000 + i) (2 ^ 32)), (N.ltb_spec (1000 + j) (2 ^ 32)); lia.
  - unfold range_N. rewrite !length_map, length_seq. reflexivity.
Qed.

Lemma normalize_correct (cfg : ParachainConfig) :
  ((exists e, normalize cfg = Err e) <-> ~ NoDup (map key_para_id (pc_keys cfg))) /\
  (forall cfg', normalize cfg = Ok cfg' ->
     pc_keys cfg' = pc_keys cfg /\ pc_xcm_version cfg' = pc_xcm_version cfg /\
     parachain_ids cfg' = parachain_ids cfg /\ (count cfg <= count cfg')%N /\
     (N.of_nat (List.length (pc_keys cfg)) < 2 ^ 32 ->
      N.of_nat (List.length (pc_keys cfg)) <= count cfg')%N).
Proof.
  unfold normalize. destruct (pc_keys cfg) as [|k rest] eqn:Ek; cbn [vec_is_empty negb].
  - split.
    + split; [intros [e He]; discriminate | intros Hn; exfalso; apply Hn; constructor].
    + intros cfg' [= <-]. rewrite Ek. simpl. repeat split; first [reflexivity | lia].
  - destruct (first_duplicate ∅ (k :: rest)) as [id|] eqn:Ed.
    + split; [| intros ? [=]].
      split; [intros _ Hnd | intros _; by eexists].
      assert (first_duplicate ∅ (k :: rest) = None) as Hn by
        (apply first_duplicate_None; split; [done | intros ? _; apply not_elem_of_empty]).
      congruence.
    + split.
      * split; [intros [e He]; discriminate |].
        intros Hn. exfalso. apply Hn. by apply first_duplicate_None in Ed as [? _].
      * intros cfg' [= <-]. simpl. split; [done | split; [done | split; [| split]]].
        -- unfold parachain_ids. simpl. by rewrite Ek.
        -- lia.
        -- intros Hlt. unfold u32_wrap. rewrite N.mod_small by lia. lia.
Qed.

(** [ParachainConfig::normalize] fails exactly when two key entries share
    a parachain id. On success it keeps the key list, the version and the
    list of parachain ids, and raises [count] to at least the number of
    key entries. *)
Theorem normalize_spec (cfg : ParachainConfig) :
  ((exists e, normalize cfg = Err e) <-> ~ NoDup (map key_para_id (pc_keys cfg))) /\
  (forall cfg', normalize cfg = Ok cfg' ->
     pc_keys cfg' = pc_keys cfg /\ pc_xcm_version cfg' = pc_xcm_version cfg /\
     parachain_ids cfg' = parachain_ids cfg /\ (count cfg <= count cfg')%N /\
     (N.of_nat (List.length (pc_keys cfg)) < 2 ^ 32 ->
      N.of_nat (List.length (pc_keys cfg)) <= count cfg')%N).
Proof. apply normalize_correct. Qed.

(** Startup order of [run]: a configuration that [normalize] accepts
    ([count] being a [u32]) always initialises: [ServiceState::initialize]
    cannot fail with [DuplicateParaId], even when [1_000 + idx] wraps. *)
Theorem normalize_then_initialize (cfg cfg' : ParachainConfig) :
  (count cfg < 2 ^ 32)%N -> normalize cfg = Ok cfg' ->
  exists st, initialize cfg' = Ok st /\
             parachain_count st = List.length (parachain_ids cfg).
Proof.
  intros Hc Hn.
  destruct (proj2 (normalize_correct cfg) cfg' Hn) as [Hk [_ [Hids _]]].
  assert (Hnd : NoDup (parachain_ids cfg')).
  { rewrite Hids. unfold parachain_ids.
    destruct (pc_keys cfg) as [|k rest] eqn:Ek; simpl.
    - apply NoDup_map_range. intros i j Hi Hj.
      rewrite !u32_wrap_1000 by lia.
      destruct (N.ltb_spec (1000 + i) (2 ^ 32)), (N.ltb_spec (1000 + j) (2 ^ 32)); lia.
    - unfold normalize in Hn. rewrite Ek in Hn. cbn [vec_is_empty negb] in Hn.
      destruct (first_duplicate ∅ (k :: rest)) eqn:Ed; [discriminate |].
      by apply first_duplicate_None in Ed as [? _]. }
  destruct (proj2 (proj1 (initialize_correct cfg')) Hnd) as [st Hst].
  exists st. split; [done |].
  rewrite <- Hids. by apply (proj2 (initialize_correct cfg')).
Qed.

(** ** Parsing the protocol version *)

(** [XcmVersion::from_str] accepts a string exactly when [is_supported]
    accepts it for that version (trimmed, case-insensitive), parses the
    [Display] form of each version back to it, and reports every other
    string as [VersionMismatch]. *)
Theorem xcm_version_from_str_spec :
  (forall (s : string) (v : XcmVersion), xcm_version_from_str s = Ok v <-> is_supported v s = true) /\
  (forall v : XcmVersion, xcm_version_from_str (fmt_version v) = Ok v) /\
  (forall (s : string) (e : MessageValidationError),
     xcm_version_from_str s = Err e -> code e = VersionMismatch).
Proof.
  unfold xcm_version_from_str, is_supported. split; [| split].
  - intros s v.
    destruct (String.eqb_spec (to_uppercase (trim s)) "V3") as [E3|E3];
    destruct (String.eqb_spec (to_uppercase (trim s)) "V4") as [E4|E4];
    destruct v; split; intros H; try discriminate; try reflexivity;
      try (rewrite E3 in E4; discriminate);
      try (apply String.eqb_eq in H; contradiction).
  - by intros [].
  - intros s e. destruct (String.eqb _ "V3"); [discriminate |].
    destruct (String.eqb _ "V4"); [discriminate |]. by intros [= <-].
Qed.

(** ** Hex decoding of configured secrets *)

Lemma string_app_nil_l (b : string) : ("" ++ b) = b.
Proof. reflexivity. Qed.

Lemma string_app_cons (x : ascii) (a b : string) : (String x a ++ b) = String x (a ++ b).
Proof. reflexivity. Qed.

Lemma string_app_assoc (a b c : string) : ((a ++ b) ++ c) = (a ++ (b ++ c)).
Proof.
  induction a as [|x a IH]; [reflexivity |].
  rewrite !string_app_cons. by rewrite IH.
Qed.

Lemma string_app_nil_r (a : string) : (a ++ "") = a.
Proof.
  induction a as [|x a IH]; [reflexivity |]. by rewrite string_app_cons, IH.
Qed.

Lemma rev_string_app (a b : string) : rev_string (a ++ b) = (rev_string b ++ rev_string a).
Proof.
  induction a as [|x a IH].
  - by rewrite string_app_nil_l, string_app_nil_r.
  - rewrite string_app_cons. simpl. by rewrite IH, string_app_assoc.
Qed.

Lemma rev_string_involutive (s : string) : rev_string (rev_string s) = s.
Proof.
  induction s as [|x s IH]; [done |]. simpl.
  rewrite rev_string_app, IH. reflexivity.
Qed.

Lemma no_whitespace_app (a b : string) :
  no_whitespace (a ++ b) = (no_whitespace a && no_whitespace b)%bool.
Proof.
  induction a as [|x a IH]; [reflexivity |].
  rewrite string_app_cons. simpl. by rewrite IH, andb_assoc.
Qed.

Lemma no_whitespace_rev (s : string) : no_whitespace (rev_string s) = no_whitespace s.
Proof.
  induction s as [|x s IH]; [done |]. simpl.
  rewrite no_whitespace_app, IH. simpl.
  by destruct (is_whitespace x), (no_whitespace s).
Qed.

Lemma trim_start_no_whitespace (s : string) : no_whitespace s = true -> trim_start s = s.
Proof.
  destruct s as [|c rest]; simpl; [done |].
  intros H. apply andb_prop in H as [H _]. by destruct (is_whitespace c).
Qed.

Lemma trim_no_whitespace (s : string) : no_whitespace s = true -> trim s = s.
Proof.
  intros H. unfold trim. rewrite (trim_start_no_whitespace s H).
  rewrite trim_start_no_whitespace by (by rewrite no_whitespace_rev).
  apply rev_string_involutive.
Qed.

Lemma hex_digit_facts (n : nat) :
  n < 16 ->
  hex_val (hex_digit n) = Some n /\ is_whitespace (hex_digit n) = false /\
  Ascii.eqb (hex_digit n) "x" = false.
Proof.
  intros Hn. do 16 (destruct n as [|n]; [repeat split; reflexivity |]). lia.
Qed.

Lemma byte_digits (b : Byte.byte) :
  Byte.to_nat b / 16 < 16 /\ Byte.to_nat b mod 16 < 16 /\
  byte_of_nat (Byte.to_nat b / 16 * 16 + Byte.to_nat b mod 16) = b.
Proof.
  pose proof (Byte.to_nat_bounded b).
  split; [apply Nat.Div0.div_lt_upper_bound; lia |].
  split; [apply Nat.mod_upper_bound; lia |].
  rewrite (Nat.mul_comm _ 16), <- Nat.div_mod by lia.
  unfold byte_of_nat. by rewrite Byte.of_to_nat.
Qed.

Lemma hex_encode_shape (bs : list Byte.byte) :
  no_whitespace (hex_encode bs) = true /\
  String.length (hex_encode bs) = 2 * List.length bs /\
  trim_start_0x (hex_encode bs) = hex_encode bs /\
  (forall idx, decode_pairs idx (hex_encode bs) = Ok bs).
Proof.
  induction bs as [|b bs [IHws [IHlen [_ IHdec]]]]; [repeat split; reflexivity |].
  destruct (byte_digits b) as [Hhi [Hlo Hb]].
  destruct (hex_digit_facts _ Hhi) as [Vhi [Whi Xhi]].
  destruct (hex_digit_facts _ Hlo) as [Vlo [Wlo Xlo]].
  change (hex_encode (b :: bs)) with
    (String (hex_digit (Byte.to_nat b / 16))
       (String (hex_digit (Byte.to_nat b mod 16)) (hex_encode bs))).
  remember (Byte.to_nat b / 16) as hi. remember (Byte.to_nat b mod 16) as lo.
  simpl. rewrite Whi, Wlo, IHws, Xlo, IHlen, andb_false_r. split; [done |].
  split; [lia |]. split; [done |].
  intros idx. rewrite Vhi, Vlo, IHdec, Hb. reflexivity.
Qed.

Lemma decode_hex_encode_iter (bs : list Byte.byte) (n : nat) :
  decode_hex (Nat.iter n (fun s => "0x" ++ s) (hex_encode bs)) = Ok bs.
Proof.
  destruct (hex_encode_shape bs) as [Hws [Hlen [H0x Hdec]]].
  unfold decode_hex. rewrite trim_no_whitespace.
  - assert (Hstrip : trim_start_0x (Nat.iter n (fun s => "0x" ++ s) (hex_encode bs))
                     = hex_encode bs).
    { induction n; simpl; [done | exact IHn]. }
    rewrite Hstrip. unfold hex_decode. rewrite Hlen, Nat.odd_mul. simpl.
    by rewrite Hdec.
  - induction n; [done |]. simpl Nat.iter. rewrite !string_app_cons. exact IHn.
Qed.

(** [decode_hex] inverts [hex::encode] (as [public_key_hex] prints keys),
    also after any number of ["0x"] prefixes: [trim_start_matches("0x")]
    strips them all. *)
Theorem decode_hex_encode (bs : list Byte.byte) (n : nat) :
  decode_hex (Nat.iter n (fun s => "0x" ++ s) (hex_encode bs)) = Ok bs.
Proof. apply decode_hex_encode_iter. Qed.

(** ** Building signing keys from configuration *)

Lemma all_whitespace_app (a b : string) :
  all_whitespace (a ++ b) = (all_whitespace a && all_whitespace b)%bool.
Proof.
  induction a as [|x a IH]; [reflexivity |].
  rewrite string_app_cons. simpl. by rewrite IH, andb_assoc.
Qed.

Lemma all_whitespace_rev (s : string) : all_whitespace (rev_string s) = all_whitespace s.
Proof.
  induction s as [|x s IH]; [done |]. simpl.
  rewrite all_whitespace_app, IH. simpl.
  by destruct (is_whitespace x), (all_whitespace s).
Qed.

Lemma is_empty_rev (s : string) : is_empty (rev_string s) = is_empty s.
Proof.
  destruct s as [|x s]; [done |]. simpl.
  by destruct (rev_string s).
Qed.

Lemma trim_start_spec (s : string) :
  is_empty (trim_start s) = all_whitespace s /\
  all_whitespace (trim_start s) = all_whitespace s.
Proof.
  induction s as [|x s IH]; [done |]. simpl.
  destruct (is_whitespace x) eqn:E; simpl; rewrite ?E; [exact IH | split; reflexivity].
Qed.

(** [s.trim().is_empty()] holds exactly for all-whitespace strings. *)
Lemma trim_is_empty (s : string) : is_empty (trim s) = all_whitespace s.
Proof.
  unfold trim. rewrite is_empty_rev, (proj1 (trim_start_spec _)), all_whitespace_rev.
  apply (proj2 (trim_start_spec s)).
Qed.

(** [signing_from_secret] on a hex-encoded secret (with or without
    ["0x"] prefixes): 32 bytes are used as the secret key, 64 bytes go
    through [from_keypair_bytes] with its error wrapped, and any other
    length is refused with the byte count in the message. *)
Theorem signing_from_secret_hex {SigningKey} `{SigningScheme SigningKey}
    (bs : list Byte.byte) (n : nat) :
  let secret := Nat.iter n (fun s => "0x" ++ s) (hex_encode bs) in
  (List.length bs = 32 -> signing_from_secret secret = Ok (signing_key_from_bytes bs)) /\
  (List.length bs = 64 ->
     signing_from_secret secret =
       match signing_key_from_keypair_bytes bs with
       | Ok k => Ok k
       | Err e => Err (KeypairSignature e)
       end) /\
  (List.length bs <> 32 -> List.length bs <> 64 ->
     signing_from_secret secret =
       Err (InvalidSecretKey ("expected 32 or 64 bytes, got " ++ fmt_nat (List.length bs)))).
Proof.
  intros secret. unfold signing_from_secret, secret. rewrite decode_hex_encode_iter.
  split; [| split].
  - intros ->. reflexivity.
  - intros ->. reflexivity.
  - intros H32 H64. apply Nat.eqb_neq in H32, H64. by rewrite H32, H64.
Qed.

Lemma from_config_entry_para_id {SigningKey} `{SigningScheme SigningKey}
    (para_id : N) (entry : ParachainKeyConfig) (kp : ParachainKeypair SigningKey) :
  from_config_entry para_id entry = Ok kp -> kp_para_id kp = para_id.
Proof.
  unfold from_config_entry.
  destruct (secret_key entry), (seed_phrase entry); try discriminate;
    repeat case_match; try discriminate; by intros [= <-].
Qed.

(** [ParachainKeypair::from_config_entry]: both sources are refused before
    either is parsed, no source is refused, a blank seed phrase is refused,
    any other seed phrase gives the key from the first 32 bytes of its
    SHA-512 digest, and a built keypair carries the requested id. *)
Theorem from_config_entry_spec {SigningKey} `{SigningScheme SigningKey}
    (para_id : N) (entry : ParachainKeyConfig) :
  (secret_key entry <> None -> seed_phrase entry <> None ->
     from_config_entry para_id entry = Err ConflictingSources) /\
  (secret_key entry = None -> seed_phrase entry = None ->
     from_config_entry para_id entry = Err MissingSource) /\
  (forall seed, secret_key entry = None -> seed_phrase entry = Some seed ->
     all_whitespace seed = true ->
     from_config_entry para_id entry = Err (SeedPhrase "seed phrase cannot be empty")) /\
  (forall seed, secret_key entry = None -> seed_phrase entry = Some seed ->
     all_whitespace seed = false ->
     from_config_entry para_id entry =
       Ok {| kp_para_id := para_id;
             signing_key := signing_key_from_bytes
                              (firstn 32 (sha512_digest (list_byte_of_string seed))) |}) /\
  (forall kp, from_config_entry para_id entry = Ok kp -> kp_para_id kp = para_id).
Proof.
  unfold from_config_entry. split; [| split; [| split; [| split]]].
  - destruct (secret_key entry), (seed_phrase entry); congruence.
  - intros -> ->. reflexivity.
  - intros seed -> -> Hw. unfold signing_from_seed_phrase. by rewrite trim_is_empty, Hw.
  - intros seed -> -> Hw. unfold signing_from_seed_phrase. by rewrite trim_is_empty, Hw.
  - intros kp. apply from_config_entry_para_id.
Qed.

Lemma build_keys_Ok {SigningKey} `{SigningScheme SigningKey}
    (rng : nat -> list Byte.byte) (cfg : ParachainConfig) (ids : list N) :
  forall draw (m m' : gmap N (ParachainKeypair SigningKey)),
  build_keys rng cfg draw m ids = Ok m' ->
  (forall id, m' !! id = None <-> (id ∉ ids) /\ m !! id = None) /\
  ((forall id kp, m !! id = Some kp -> kp_para_id kp = id) ->
   forall id kp, m' !! id = Some kp -> kp_para_id kp = id).
Proof.
  induction ids as [|id rest IH]; intros draw m m' Hb; simpl in Hb.
  - injection Hb as <-. split; [| done].
    intros id. split; [intros Hn; split; [apply not_elem_of_nil | done] | by intros [_ ?]].
  - assert (Hstep : forall m1 : gmap N (ParachainKeypair SigningKey), forall kp,
              kp_para_id kp = id ->
              build_keys rng cfg draw m1 rest = Ok m' \/
              build_keys rng cfg (S draw) m1 rest = Ok m' ->
              m1 = <[id := kp]> m ->
              (forall id', m' !! id' = None <-> (id' ∉ id :: rest) /\ m !! id' = None) /\
              ((forall id' kp', m !! id' = Some kp' -> kp_para_id kp' = id') ->
               forall id' kp', m' !! id' = Some kp' -> kp_para_id kp' = id')).
    { intros m1 kp Hkp Hrest ->.
      assert (Hr : (forall id', m' !! id' = None <-> (id' ∉ rest) /\ <[id:=kp]> m !! id' = None) /\
                   ((forall id' kp', <[id:=kp]> m !! id' = Some kp' -> kp_para_id kp' = id') ->
                    forall id' kp', m' !! id' = Some kp' -> kp_para_id kp' = id')).
      { destruct Hrest as [Hrest | Hrest]; exact (IH _ _ _ Hrest). }
      destruct Hr as [Hdom Hids]. split.
      - intros id'. rewrite Hdom, not_elem_of_cons.
        destruct (decide (id' = id)) as [->|Hne].
        + rewrite lookup_insert_eq. split; [intros [_ Hc]; discriminate | intros [[Hne _] _]; by destruct Hne].
        + rewrite lookup_insert_ne by congruence. tauto.
      - intros Hm. apply Hids. intros id' kp'.
        destruct (decide (id' = id)) as [->|Hne].
        + rewrite lookup_insert_eq. by intros [= <-].
        + rewrite lookup_insert_ne by congruence. apply Hm. }
    destruct (find_key_config (pc_keys cfg) id) as [entry|].
    + destruct (from_config_entry id entry) as [kp|] eqn:Ee; [| discriminate].
      apply (Hstep (<[id := kp]> m) kp); [| by left | done].
      exact (from_config_entry_para_id id entry kp Ee).
    + by apply (Hstep (<[id := generate rng draw id]> m) (generate rng draw id)); [| right |].
Qed.

Lemma build_keys_no_entries {SigningKey} `{SigningScheme SigningKey}
    (rng : nat -> list Byte.byte) (cfg : ParachainConfig) (ids : list N) :
  pc_keys cfg = [] ->
  forall draw (m : gmap N (ParachainKeypair SigningKey)),
  exists m', build_keys rng cfg draw m ids = Ok m'.
Proof.
  intros Hk. induction ids as [|id rest IH]; intros draw m; simpl.
  - by eexists.
  - rewrite Hk. simpl. apply IH.
Qed.

Lemma build_keys_Err {SigningKey} `{SigningScheme SigningKey}
    (rng : nat -> list Byte.byte) (cfg : ParachainConfig) (ids : list N) :
  forall draw (m : gmap N (ParachainKeypair SigningKey)) e,
  build_keys rng cfg draw m ids = Err e ->
  exists id msg, e = InvalidKey id msg /\ id ∈ ids.
Proof.
  induction ids as [|id rest IH]; intros draw m e Hb; simpl in Hb; [discriminate |].
  destruct (find_key_config (pc_keys cfg) id) as [entry|].
  - destruct (from_config_entry id entry) as [kp|err].
    + destruct (IH _ _ _ Hb) as (id' & msg & -> & Hin).
      exists id', msg. split; [done | apply elem_of_cons; by right].
    + injection Hb as <-. exists id, (keypair_error_to_string err).
      split; [done | apply elem_of_cons; by left].
  - destruct (IH _ _ _ Hb) as (id' & msg & -> & Hin).
    exists id', msg. split; [done | apply elem_of_cons; by right].
Qed.

Lemma from_config_correct {SigningKey} `{SigningScheme SigningKey}
    (rng : nat -> list Byte.byte) (cfg : ParachainConfig) :
  (forall reg : KeyRegistry (ParachainKeypair SigningKey), from_config rng cfg = Ok reg ->
     (forall id, is_Some (inner reg !! id) <-> id ∈ parachain_ids cfg) /\
     (forall id kp, inner reg !! id = Some kp -> kp_para_id kp = id)) /\
  (pc_keys cfg = [] -> exists reg : KeyRegistry (ParachainKeypair SigningKey),
     from_config rng cfg = Ok reg) /\
  (forall e, from_config (SigningKey := SigningKey) rng cfg = Err e ->
     exists id msg, e = InvalidKey id msg /\ id ∈ parachain_ids cfg).
Proof.
  unfold from_config. split; [| split].
  - intros reg Hf. destruct (build_keys rng cfg 0 ∅ (parachain_ids cfg)) as [m|] eqn:Hb;
      [| discriminate]. injection Hf as <-. simpl.
    destruct (build_keys_Ok _ _ _ _ _ _ Hb) as [Hdom Hids]. split.
    + intros id. rewrite <- not_eq_None_Some, Hdom, lookup_empty.
      destruct (decide (id ∈ parachain_ids cfg)); tauto.
    + apply Hids. intros id kp. by rewrite lookup_empty.
  - intros Hk. destruct (build_keys_no_entries rng cfg (parachain_ids cfg) Hk 0 ∅) as [m ->].
    by eexists.
  - intros e Hf. destruct (build_keys rng cfg 0 ∅ (parachain_ids cfg)) eqn:Hb;
      [discriminate |]. injection Hf as <-. exact (build_keys_Err _ _ _ _ _ _ Hb).
Qed.

(** [KeyRegistry::from_config]: a registry it returns holds a keypair for
    exactly the ids of [parachain_ids], each carrying its own id; without
    configured keys it cannot fail; its only failure is [InvalidKey] for
    one of those ids. *)
Theorem from_config_spec {SigningKey} `{SigningScheme SigningKey}
    (rng : nat -> list Byte.byte) (cfg : ParachainConfig) :
  (forall reg : KeyRegistry (ParachainKeypair SigningKey), from_config rng cfg = Ok reg ->
     (forall id, is_Some (inner reg !! id) <-> id ∈ parachain_ids cfg) /\
     (forall id kp, inner reg !! id = Some kp -> kp_para_id kp = id)) /\
  (pc_keys cfg = [] -> exists reg : KeyRegistry (ParachainKeypair SigningKey),
     from_config rng cfg = Ok reg) /\
  (forall e, from_config (SigningKey := SigningKey) rng cfg = Err e ->
     exists id msg, e = InvalidKey id msg /\ id ∈ parachain_ids cfg).
Proof. apply from_config_correct. Qed.

(** At start-up ([run]) the ledgers of [ServiceState::initialize] and the
    keys of [KeyRegistry::from_config] are built from the same
    configuration: a chain has a ledger exactly when it has a key, so
    [verify_signature] reports [UnknownParachain] exactly for chains
    without a ledger. *)
Theorem startup_keys_match_ledgers {SigningKey} `{SigningScheme SigningKey}
    `{Verifier (ParachainKeypair SigningKey)}
    (rng : nat -> list Byte.byte) (cfg : ParachainConfig)
    (st : ServiceState) (reg : KeyRegistry (ParachainKeypair SigningKey)) :
  initialize cfg = Ok st -> from_config rng cfg = Ok reg ->
  forall id message sig,
    (is_Some (data (parachains st) !! id) <-> is_Some (inner reg !! id)) /\
    (verify_signature reg id message sig = Err (UnknownParachain id) <->
     data (parachains st) !! id = None).
Proof.
  intros Hi Hf id message sig.
  destruct (proj2 (initialize_correct cfg) st Hi) as [Hlook _].
  destruct (proj1 (from_config_correct rng cfg) reg Hf) as [Hdom _].
  assert (Hiff : is_Some (data (parachains st) !! id) <-> is_Some (inner reg !! id)).
  { rewrite Hdom, Hlook. case_decide.
    - split; [done | by eexists].
    - split; [intros [? Hc]; discriminate | done]. }
  split; [exact Hiff |].
  unfold verify_signature. destruct (inner reg !! id) as [kp|] eqn:Ek.
  - assert (Hs : is_Some (data (parachains st) !! id)) by (apply Hiff; by eexists).
    split; [| intros Hn; rewrite Hn in Hs; by destruct Hs].
    repeat case_match; discriminate.
  - split; [intros _ | done].
    destruct (data (parachains st) !! id) eqn:Ed; [| done].
    exfalso. assert (Hs : is_Some (None : option (ParachainKeypair SigningKey)))
      by (apply Hiff; by eexists). by destruct Hs.
Qed.

(** ** The execution engine *)

Lemma transferred_to_nonneg (who : string) (l : list Instruction) :
  amounts_nonneg l = true -> (0 <= transferred_to who l)%Z.
Proof.
  induction l as [|[t|t|t] rest IH]; simpl; try lia; try exact IH.
  intros [Ht Hr]%andb_prop. apply Z.leb_le in Ht. specialize (IH Hr).
  destruct (String.eqb _ _); lia.
Qed.

Lemma transferred_to_none (who : string) (l : list Instruction) :
  transfers_to who l = false -> transferred_to who l = 0%Z.
Proof.
  induction l as [|[t|t|t] rest IH]; simpl; try done.
  intros [Hb Hr]%orb_false_elim. by rewrite Hb, IH.
Qed.

Lemma execute_instruction_balances (ps : ParachainState) (i : Instruction) (who : string) :
  balances (fst (execute_instruction ps i)) !! who =
    match i with
    | ITransferReserveAsset t =>
        if String.eqb (beneficiary t) who
        then Some (saturating_add (default 0%Z (balances ps !! who)) (amount t))
        else balances ps !! who
    | _ => balances ps !! who
    end.
Proof.
  destruct i as [t|t|t]; try reflexivity. simpl.
  destruct (String.eqb_spec (beneficiary t) who) as [<-|Hne].
  - by rewrite lookup_insert_eq.
  - by rewrite lookup_insert_ne.
Qed.

Lemma execute_instruction_logs (ps : ParachainState) (i : Instruction) :
  exists line, logs (fst (execute_instruction ps i)) = app (logs ps) [line].
Proof. destruct i; simpl; eexists; reflexivity. Qed.

(** The instruction loop of [execute] on one chain: one outcome line and
    one chain log line per instruction, and every account's balance ends
    as [min(old + transferred, u128::MAX)] (old = 0 when absent), the
    account left as it was when nothing is sent to it. *)
Lemma execute_instructions_spec (l : list Instruction) :
  forall (ps : ParachainState) (out : list string),
  let res := execute_instructions ps l out in
  (exists lines, snd res = app out lines /\ List.length lines = List.length l) /\
  (exists added, logs (fst res) = app (logs ps) added /\ List.length added = List.length l) /\
  (amounts_nonneg l = true -> forall who,
     balances (fst res) !! who =
       if transfers_to who l
       then Some (Z.min (default 0%Z (balances ps !! who) + transferred_to who l) U128_MAX)
       else balances ps !! who).
Proof.
  induction l as [|i rest IH]; intros ps out res; subst res; simpl.
  - split; [exists []; by rewrite app_nil_r |].
    split; [exists []; by rewrite app_nil_r | done].
  - destruct (execute_instruction ps i) as [ps1 line] eqn:Ei.
    destruct (IH ps1 (app out [line])) as [[lines [Hout Hlen]] [[added [Hlog Hal]] Hbal]].
    split; [| split].
    + exists (line :: lines). rewrite Hout, <- app_assoc. simpl. by rewrite Hlen.
    + destruct (execute_instruction_logs ps i) as [l1 Hl1]. rewrite Ei in Hl1. simpl in Hl1.
      exists (l1 :: added). rewrite Hlog, Hl1, <- app_assoc. simpl. by rewrite Hal.
    + intros Hnn who.
      assert (Hrest : amounts_nonneg rest = true)
        by (destruct i; simpl in Hnn; try exact Hnn; by apply andb_prop in Hnn as [_ ?]).
      rewrite (Hbal Hrest who).
      pose proof (execute_instruction_balances ps i who) as Hb1. rewrite Ei in Hb1. simpl in Hb1.
      pose proof (transferred_to_nonneg who rest Hrest) as Hpos.
      destruct i as [t|t|t]; simpl; try by rewrite Hb1.
      destruct (String.eqb_spec (beneficiary t) who) as [Heq|Hne]; simpl.
      * rewrite Hb1. simpl. rewrite saturating_add_min.
        destruct (transfers_to who rest) eqn:Htr.
        -- f_equal. simpl in Hnn. apply andb_prop in Hnn as [Ht _]. apply Z.leb_le in Ht. lia.
        -- rewrite (transferred_to_none who rest Htr). f_equal. lia.
      * by rewrite Hb1.
Qed.

(** [DefaultExecutionEngine::execute]: a poisoned ledger lock or an
    unregistered destination is an error that leaves the state as it was;
    on success there is one outcome line per instruction ([summary] is
    [None] exactly for an empty instruction list), only the destination's
    ledger changes, one line per instruction is appended to its log, and
    each account's balance becomes [min(old + transferred, u128::MAX)]. *)
Theorem execute_spec (st : ServiceState) (message : MessageEnvelope) :
  (forall e st', execute st message = (Err e, st') ->
     st' = st /\
     e = (if poisoned (parachains st) then ExecStatePoisoned
          else ExecUnknownParachain (dest_para message)) /\
     (poisoned (parachains st) = false -> data (parachains st) !! dest_para message = None)) /\
  (forall o st', execute st message = (Ok o, st') ->
     List.length (outcome_logs o) = List.length (instructions message) /\
     (summary o = None <-> instructions message = []) /\
     messages st' = messages st /\
     poisoned (parachains st') = poisoned (parachains st) /\
     (forall id, id <> dest_para message ->
        data (parachains st') !! id = data (parachains st) !! id) /\
     exists ps ps',
       data (parachains st) !! dest_para message = Some ps /\
       data (parachains st') !! dest_para message = Some ps' /\
       (exists added, logs ps' = app (logs ps) added /\
                      List.length added = List.length (instructions message)) /\
       (amounts_nonneg (instructions message) = true -> forall who,
          balances ps' !! who =
            if transfers_to who (instructions message)
            then Some (Z.min (default 0%Z (balances ps !! who)
                              + transferred_to who (instructions message)) U128_MAX)
            else balances ps !! who)).
Proof.
  unfold execute, lock_write. split.
  - intros e st'. destruct (poisoned (parachains st)); [by intros [= <- <-] |].
    destruct (data (parachains st) !! dest_para message) as [ps|] eqn:Ed.
    + by destruct (execute_instructions _ _ _).
    + by intros [= <- <-].
  - intros o st'. destruct (poisoned (parachains st)) eqn:Hp; [discriminate |].
    destruct (data (parachains st) !! dest_para message) as [ps|] eqn:Ed; [| discriminate].
    pose proof (execute_instructions_spec (instructions message) ps []) as Hspec.
    destruct (execute_instructions ps (instructions message) []) as [ps' out].
    intros [= <- <-]. simpl in Hspec.
    destruct Hspec as [[lines [Hout Hlen]] [Hlogs Hbal]]. simpl in Hout. subst out.
    split; [done |]. split.
    { unfold summary. simpl. destruct lines, (instructions message); simpl in *;
        split; intros; try done; discriminate. }
    split; [done |]. split; [done |]. split.
    + intros id Hne. simpl. by rewrite lookup_insert_ne by congruence.
    + exists ps, ps'. simpl. rewrite lookup_insert_eq. by repeat split.
Qed.

(** ** The relay side of the processor *)

Lemma relay_frame_refl (w : World) : relay_frame w w.
Proof. unfold relay_frame. by repeat split. Qed.

Lemma relay_frame_trans (w1 w2 w3 : World) :
  relay_frame w1 w2 -> relay_frame w2 w3 -> relay_frame w1 w3.
Proof.
  unfold relay_frame. intros (A1 & B1 & C1 & D1 & E1) (A2 & B2 & C2 & D2 & E2).
  split; [congruence |]. split; [congruence |]. split; [auto |]. split; congruence.
Qed.

Lemma relay_frame_set_messages (w : World) (mid : string) (r : MessageRecord) :
  relay_frame w (set_state w (set_messages (state w)
                                (<[mid := r]> (data (messages (state w)))))).
Proof.
  unfold relay_frame. simpl. split; [done |]. split; [done |]. split; [| done].
  intros id. destruct (decide (id = mid)) as [->|Hne].
  - rewrite lookup_insert_eq. by eexists.
  - by rewrite lookup_insert_ne.
Qed.

Lemma resolve_message_id_frame (o : option string) (w : World) :
  relay_frame w (snd (resolve_message_id o w)) /\
  channel (snd (resolve_message_id o w)) = channel w.
Proof.
  destruct (resolve_message_id_state o w) as (Hs & Hc & Hr).
  unfold relay_frame. rewrite Hs, Hr, Hc. by repeat split.
Qed.

(** [process_single_message] writes only the record's hops and the
    destination's log: it keeps the relay frame and the channel, and on
    success the destination received exactly one log line. *)
Lemma process_single_message_frame (w : World) (q : QueuedMessage) :
  let r := process_single_message w q in
  relay_frame w (snd r) /\ channel (snd r) = channel w /\
  (fst r = Ok tt ->
   exists ps, data (parachains (state w)) !! dest_para (envelope q) = Some ps /\
     data (parachains (state (snd r))) =
       <[dest_para (envelope q) :=
           {| balances := balances ps;
              logs := app (logs ps)
                ["Received message with " ++ fmt_nat (List.length (instructions (envelope q)))
                 ++ " instructions"] |}]> (data (parachains (state w)))).
Proof.
  intros r. subst r. unfold process_single_message. simpl.
  destruct (lock_write (messages (state w))) as [msgs|] eqn:Hm;
    [| split; [apply relay_frame_refl | by split]].
  unfold lock_write in Hm. destruct (poisoned (messages (state w))) eqn:Hpm; [discriminate |].
  injection Hm as <-.
  destruct (resolve_message_id (message_id (envelope q)) w) as [mid w1] eqn:Er.
  destruct (resolve_message_id_frame (message_id (envelope q)) w) as [F1 C1].
  destruct (resolve_message_id_state (message_id (envelope q)) w) as [S1 _].
  rewrite Er in F1, C1, S1. simpl in F1, C1, S1.
  set (w2 := match data (messages (state w)) !! mid with
             | Some record => set_state w1 (set_messages (state w1)
                 (<[mid := {| status := status record;
                               hops := [sender_para (envelope q); dest_para (envelope q)] |}]>
                    (data (messages (state w)))))
             | None => w1 end).
  assert (F2 : relay_frame w w2 /\ channel w2 = channel w /\ state w2 = state w1 \/
               relay_frame w w2 /\ channel w2 = channel w /\
               parachains (state w2) = parachains (state w1)).
  { subst w2. destruct (data (messages (state w)) !! mid).
    - right. split; [| split; [simpl; done | done]].
      apply (relay_frame_trans _ w1); [done |]. rewrite <- S1. apply relay_frame_set_messages.
    - left. done. }
  assert (F2' : relay_frame w w2 /\ channel w2 = channel w /\
                parachains (state w2) = parachains (state w)).
  { rewrite <- S1. destruct F2 as [(? & ? & Hs) | (? & ? & Hp)];
      [by rewrite Hs | by rewrite Hp]. }
  clear F2. destruct F2' as (F2 & C2 & P2). fold w2.
  destruct (lock_write (parachains (state w2))) as [paras|] eqn:Hp;
    [| split; [done | split; [done | discriminate]]].
  unfold lock_write in Hp. destruct (poisoned (parachains (state w2))) eqn:Hpp; [discriminate |].
  injection Hp as <-.
  destruct (data (parachains (state w2)) !! dest_para (envelope q)) as [ps|] eqn:Ed;
    [| split; [done | split; [done | discriminate]]].
  simpl. split; [| split; [done |]].
  - apply (relay_frame_trans _ w2); [done |].
    unfold relay_frame, ledger_balances. simpl. split; [done |]. split; [done |].
    split; [done |]. split; [| done].
    rewrite fmap_insert. simpl. apply insert_id. by rewrite lookup_fmap, Ed.
  - intros _. exists ps. rewrite <- P2. by split.
Qed.

Lemma relay_iteration_frame (w : World) (q : QueuedMessage) :
  relay_frame w (relay_iteration w q) /\ channel (relay_iteration w q) = channel w.
Proof.
  unfold relay_iteration.
  destruct (resolve_message_id (message_id (envelope q)) w) as [mid w1] eqn:Er.
  destruct (resolve_message_id_frame (message_id (envelope q)) w) as [F1 C1].
  rewrite Er in F1, C1. simpl in F1, C1.
  destruct (process_single_message_frame w1 q) as [F2 [C2 _]].
  destruct (process_single_message w1 q) as [res w2]. simpl in F2, C2.
  assert (F12 : relay_frame w w2) by (by apply (relay_frame_trans _ w1)).
  destruct (lock_write (messages (state w2))) as [msgs|] eqn:Hm; [| split; congruence].
  unfold lock_write in Hm. destruct (poisoned (messages (state w2))); [discriminate |].
  injection Hm as <-.
  destruct (data (messages (state w2)) !! mid);
    (split; [apply (relay_frame_trans _ w2); [done | apply relay_frame_set_messages] |
             simpl; congruence]).
Qed.

Lemma resolve_message_id_set_channel (o : option string) (w : World) (c : list QueuedMessage) :
  resolve_message_id o (set_channel w c) =
    (fst (resolve_message_id o w), set_channel (snd (resolve_message_id o w)) c).
Proof. by destruct o. Qed.

Lemma process_single_message_set_channel (w : World) (q : QueuedMessage) (c : list QueuedMessage) :
  process_single_message (set_channel w c) q =
    (fst (process_single_message w q), set_channel (snd (process_single_message w q)) c).
Proof.
  unfold process_single_message. simpl.
  destruct (lock_write (messages (state w))) as [msgs|]; [| reflexivity].
  rewrite resolve_message_id_set_channel.
  destruct (resolve_message_id (message_id (envelope q)) w) as [mid w1]. simpl.
  destruct (msgs !! mid); simpl.
  - destruct (lock_write _) as [paras|]; [| reflexivity].
    destruct (paras !! _); reflexivity.
  - destruct (lock_write _) as [paras|]; [| reflexivity].
    destruct (paras !! _); reflexivity.
Qed.

Lemma relay_iteration_set_channel (w : World) (q : QueuedMessage) (c : list QueuedMessage) :
  relay_iteration (set_channel w c) q = set_channel (relay_iteration w q) c.
Proof.
  unfold relay_iteration. rewrite resolve_message_id_set_channel.
  destruct (resolve_message_id (message_id (envelope q)) w) as [mid w1]. simpl.
  rewrite process_single_message_set_channel.
  destruct (process_single_message w1 q) as [res w2]. simpl.
  destruct (lock_write (messages (state w2))) as [msgs|]; [| reflexivity].
  destruct (msgs !! mid); reflexivity.
Qed.

(** [run_relay_loop] handles the queued messages in FIFO order: with
    enough iterations it empties the channel and its effect is
    [relay_iteration] applied to each queued message, oldest first. *)
Theorem run_relay_loop_fifo (fuel : nat) (w : World) :
  List.length (channel w) <= fuel ->
  run_relay_loop fuel w = fold_left relay_iteration (channel w) (set_channel w []).
Proof.
  revert w. induction fuel as [|f IH]; intros w Hlen.
  - destruct (channel w) eqn:Ec; [| simpl in Hlen; lia].
    destruct w. simpl in *. by subst.
  - simpl. unfold channel_recv. destruct (channel w) as [|q rest] eqn:Ec.
    + destruct w. simpl in *. by subst.
    + simpl. rewrite IH.
      * destruct (relay_iteration_frame (set_channel w rest) q) as [_ Hc].
        rewrite Hc. simpl. f_equal. rewrite <- relay_iteration_set_channel.
        reflexivity.
      * destruct (relay_iteration_frame (set_channel w rest) q) as [_ Hc].
        rewrite Hc. simpl in *. lia.
Qed.

(** The relay loop never moves funds, never poisons a lock, never deletes a
    message record and never adds or removes a chain: whatever it
    receives, the balances of every chain stay as they were. *)
Theorem run_relay_loop_frame (fuel : nat) (w : World) :
  relay_frame w (run_relay_loop fuel w).
Proof.
  revert w. induction fuel as [|f IH]; intros w; simpl; [apply relay_frame_refl |].
  unfold channel_recv. destruct (channel w) as [|q rest]; [apply relay_frame_refl |].
  apply (relay_frame_trans _ (relay_iteration (set_channel w rest) q)); [| apply IH].
  apply (relay_frame_trans _ (set_channel w rest)); [| apply relay_iteration_frame].
  exact (relay_frame_refl w).
Qed.

(** ** The submission side of the processor *)

(** [MessageProcessor::submit_message] never touches the ledgers, never
    poisons the message lock and never removes a record; it enqueues the
    message (at the back of the channel) exactly when it returns [Ok], and
    leaves the channel as it was on every error. *)
Theorem submit_message_frame {Key} `{Verifier Key}
    (p : MessageProcessor Key) (env : MessageEnvelope) (raw sig : list Byte.byte)
    (w : World) :
  let r := submit_message p env raw sig w in
  parachains (state (snd r)) = parachains (state w) /\
  poisoned (messages (state (snd r))) = poisoned (messages (state w)) /\
  receiver_dropped (snd r) = receiver_dropped w /\
  (forall id, is_Some (data (messages (state w)) !! id) ->
              is_Some (data (messages (state (snd r))) !! id)) /\
  (fst r = Ok tt -> channel (snd r) = app (channel w) [{| envelope := env; raw_payload := raw |}]) /\
  (fst r <> Ok tt -> channel (snd r) = channel w).
Proof.
  intros r. subst r. unfold submit_message.
  destruct (validate env (configured_version p)); [| simpl; by repeat split].
  destruct (verify_signature (keys p) (sender_para env) raw sig); [| simpl; by repeat split].
  pose proof (resolve_message_id_state (message_id env) w) as [Hs [Hc Hr]].
  destruct (resolve_message_id (message_id env) w) as [mid w1]. simpl in Hs, Hc, Hr.
  destruct (lock_write (messages (state w1))) as [msgs|] eqn:Hm;
    [| simpl; rewrite Hs, Hc, Hr; split; [done | split; [done | split; [done | split; [done |]]]];
       split; [discriminate | done]].
  unfold lock_write in Hm. destruct (poisoned (messages (state w1))) eqn:Hp; [discriminate |].
  injection Hm as <-.
  assert (Hdom : forall id, is_Some (data (messages (state w1)) !! id) ->
                 is_Some ((<[mid := {| status := Pending; hops := [sender_para env] |}]>
                           (data (messages (state w1)))) !! id)).
  { intros id. destruct (decide (id = mid)) as [->|Hne].
    - rewrite lookup_insert_eq. by eexists.
    - by rewrite lookup_insert_ne. }
  unfold channel_send. simpl. rewrite Hr.
  destruct (receiver_dropped w); simpl; rewrite <- ?Hs, ?Hp;
    (split; [by rewrite Hs |]); (split; [by rewrite Hs in Hp |]);
    (split; [done |]); (split; [exact Hdom |]).
  - split; [discriminate | by rewrite Hc].
  - split; [by rewrite Hc | done].
Qed.

(** ** HTTP responses *)

(** [409 CONFLICT] is produced only for a bare [ApiError::Validation] with
    code [VersionMismatch], and the body of the [get_status] handler, on
    an extracted id, fails only with [404] (no record) or [500] (poisoned
    lock). *)
Theorem api_status_codes :
  (forall e, http_status e = 409%N <->
             exists err, e = ApiValidation err /\ code err = VersionMismatch) /\
  (forall w id e, get_status w id = Err e ->
     (e = NotFound /\ http_status e = 404%N) \/
     (e = ApiProcessing StatePoisoned /\ http_status e = 500%N)).
Proof.
  split.
  - intros [err|[]|]; simpl; try (split; [discriminate | intros (? & ? & _); discriminate]).
    destruct (code err) eqn:Ec; split; try discriminate;
      try (intros (err' & [= <-] & Hc); congruence).
    intros _. by exists err.
  - intros w id e. unfold get_status.
    destruct (lock_read (messages (state w))); [| intros [= <-]; by right].
    destruct (_ !! id); [discriminate | intros [= <-]; by left].
Qed.

(** The body of the [submit_message] handler, on a deserialized envelope,
    never answers [409]: every error it returns is [400], [401], [500] or
    [503]. A validation failure, [VersionMismatch]
    included, reaches the client wrapped in [ProcessorError::Validation],
    so as [400 BAD_REQUEST] with the validation code in the body, and the
    state is left as it was. *)
Theorem api_submit_errors {Key} `{Verifier Key}
    (serialize : MessageEnvelope -> result (list Byte.byte) string)
    (p : MessageProcessor Key) (payload : MessageEnvelope) (w : World) :
  let r := api_submit_message serialize p payload w in
  (forall e, fst r = Err e -> http_status e ∈ [400%N; 401%N; 500%N; 503%N]) /\
  (forall raw sig_hex sig err,
     serialize payload = Ok raw -> signature payload = Some sig_hex ->
     hex_decode sig_hex = Ok sig -> validate payload (configured_version p) = Err err ->
     r = (Err (ApiProcessing (Validation err)), w) /\
     http_status (ApiProcessing (Validation err)) = 400%N /\
     fst (error_response (ApiProcessing (Validation err))) = code err).
Proof.
  intros r. subst r. unfold api_submit_message. split.
  - intros e. destruct (serialize payload) as [raw|]; [| simpl; intros [= <-]; simpl; set_solver].
    destruct (signature payload) as [sig_hex|]; [| simpl; intros [= <-]; simpl; set_solver].
    destruct (hex_decode sig_hex) as [sig|]; [| simpl; intros [= <-]; simpl; set_solver].
    destruct (submit_message p payload raw sig w) as [[[]|[] ] w']; simpl;
      [discriminate | ..]; intros [= <-]; simpl; set_solver.
  - intros raw sig_hex sig err -> -> -> Hv. unfold submit_message. by rewrite Hv.
Qed.

(** * The theorems at the demo deployment *)

Lemma relay_success_writes_Relayed_witness :
  message_id (envelope (Demo.queued (Some "m1") 2000)) = Some "m1" /\
  poisoned (messages (state Demo.world0)) = false /\
  poisoned (parachains (state Demo.world0)) = false /\
  is_Some (data (parachains (state Demo.world0)) !! dest_para (envelope (Demo.queued (Some "m1") 2000))) /\
  status <$> (data (messages (state (relay_iteration Demo.world0 (Demo.queued (Some "m1") 2000))))
               !! "m1") = Some Relayed.
Proof.
  split; [reflexivity |]. split; [reflexivity |]. split; [reflexivity |].
  split; [eexists; reflexivity |].
  apply relay_success_writes_Relayed; [reflexivity | reflexivity | reflexivity |].
  eexists; reflexivity.
Defined.

Lemma submit_success_returns_unit_witness :
  validate (Demo.env (Some "m1") 2000) (configured_version Demo.processor) = Ok tt /\
  verify_signature (keys Demo.processor) 1000 Demo.raw Demo.good_sig = Ok tt /\
  poisoned (messages (state Demo.world0)) = false /\
  receiver_dropped Demo.world0 = false /\
  fst (submit_message Demo.processor (Demo.env (Some "m1") 2000) Demo.raw Demo.good_sig
         Demo.world0) = Ok tt.
Proof.
  split; [reflexivity |]. split; [reflexivity |]. split; [reflexivity |].
  split; [reflexivity |].
  apply submit_success_returns_unit; reflexivity.
Defined.

Lemma submit_bad_signature_no_record_witness :
  validate (Demo.env (Some "m1") 2000) (configured_version Demo.processor) = Ok tt /\
  verify_signature (keys Demo.processor) 1000 Demo.raw [Byte.x01] =
    Err (InvalidSignature "expected 64-byte signature, received 1 bytes") /\
  submit_message Demo.processor (Demo.env (Some "m1") 2000) Demo.raw [Byte.x01] Demo.world0 =
    (Err (Signature (InvalidSignature "expected 64-byte signature, received 1 bytes")),
     Demo.world0).
Proof.
  assert (Hval : validate (Demo.env (Some "m1") 2000) (configured_version Demo.processor)
                 = Ok tt) by reflexivity.
  assert (Hver : verify_signature (keys Demo.processor) 1000 Demo.raw [Byte.x01] =
                 Err (InvalidSignature "expected 64-byte signature, received 1 bytes"))
    by reflexivity.
  split; [exact Hval |]. split; [exact Hver |].
  exact (proj1 (submit_bad_signature_no_record Demo.processor (Demo.env (Some "m1") 2000)
                  Demo.raw [Byte.x01] Demo.world0 _ Hval Hver)).
Defined.

Lemma version_mismatch_short_circuits_witness :
  let p : MessageProcessor N := {| keys := Demo.registry; configured_version := " v4 " |} in
  sender_para (Demo.env None 2000) <> 0%N /\ dest_para (Demo.env None 2000) <> 0%N /\
  sender_para (Demo.env None 2000) <> dest_para (Demo.env None 2000) /\
  instructions (Demo.env None 2000) <> [] /\
  is_supported V3 (configured_version p) = false /\
  submit_message p (Demo.env None 2000) Demo.raw Demo.good_sig Demo.world0 =
    (Err (Validation {| code := VersionMismatch;
                        detail := "message version V3 mismatches configured version  v4 " |}),
     Demo.world0).
Proof.
  intros p.
  assert (Hs : sender_para (Demo.env None 2000) <> 0%N) by discriminate.
  assert (Hd : dest_para (Demo.env None 2000) <> 0%N) by discriminate.
  assert (Hsd : sender_para (Demo.env None 2000) <> dest_para (Demo.env None 2000))
    by discriminate.
  assert (Hi : instructions (Demo.env None 2000) <> []) by discriminate.
  assert (Hv : is_supported (xcm_version (Demo.env None 2000)) (configured_version p) = false)
    by reflexivity.
  split; [exact Hs |]. split; [exact Hd |]. split; [exact Hsd |].
  split; [exact Hi |]. split; [exact Hv |].
  exact (proj2 (proj1 (version_mismatch_short_circuits p (Demo.env None 2000) Demo.raw
                         Demo.good_sig Demo.world0) Hs Hd Hsd Hi Hv)).
Defined.

Lemma validate_invalid_payload_witness :
  let e := {| message_id := None; sender_para := 1000; dest_para := 2000; xcm_version := V3;
              instructions := [Demo.dot10; ITransact {| call_data := ""; weight := None |}];
              signature := None |} in
  validate e "V3" =
    Err (invalid_payload "instruction 1 invalid: call_data must be provided").
Proof.
  intros e.
  apply (proj1 (proj2 (proj2 (proj2 (proj2 (validate_invalid_payload e "V3")))))
           [Demo.dot10] (ITransact {| call_data := ""; weight := None |}) []
           (invalid_payload "call_data must be provided"));
    first [discriminate | reflexivity | repeat constructor].
Defined.

Lemma submit_registers_pending_witness :
  validate (Demo.env None 2000) (configured_version Demo.processor) = Ok tt /\
  verify_signature (keys Demo.processor) 1000 Demo.raw Demo.good_sig = Ok tt /\
  poisoned (messages (state Demo.world0)) = false /\
  get_status (snd (submit_message Demo.processor (Demo.env None 2000) Demo.raw Demo.good_sig
                     Demo.world0)) "uuid-0"
    = Ok {| status := Pending; hops := [1000%N] |}.
Proof.
  split; [reflexivity |]. split; [reflexivity |]. split; [reflexivity |].
  apply (submit_registers_pending Demo.processor (Demo.env None 2000) Demo.raw Demo.good_sig
           Demo.world0); reflexivity.
Defined.

Lemma transfer_saturating_balance_witness :
  let ps := {| balances := <["acct-123" := (U128_MAX - 3)%Z]> ∅; logs := [] |} in
  let t := {| asset := "DOT"; amount := 10; beneficiary := "acct-123" |} in
  (0 <= amount t <= U128_MAX)%Z /\
  balances (apply_transfer ps t) !! "acct-123" = Some U128_MAX.
Proof.
  intros ps t.
  assert (Hamt : (0 <= amount t <= U128_MAX)%Z) by (simpl; unfold U128_MAX; lia).
  split; [exact Hamt |].
  assert (Hbal : forall v, balances ps !! beneficiary t = Some v -> (0 <= v <= U128_MAX)%Z).
  { intros v Hv. simpl in Hv. rewrite lookup_insert_eq in Hv. injection Hv as <-.
    unfold U128_MAX. lia. }
  destruct (transfer_saturating_balance ps t Hamt Hbal) as [_ [Hb _]].
  change "acct-123" with (beneficiary t). rewrite Hb.
  simpl. rewrite lookup_insert_eq. simpl. f_equal.
Defined.

Lemma parachain_ids_default_witness :
  pc_keys Demo.default_config = [] /\ (count Demo.default_config <= 2 ^ 32 - 1000)%N /\
  (1002%N ∈ parachain_ids Demo.default_config).
Proof.
  assert (Hk : pc_keys Demo.default_config = []) by reflexivity.
  assert (Hc : (count Demo.default_config <= 2 ^ 32 - 1000)%N) by (simpl; lia).
  split; [exact Hk |]. split; [exact Hc |].
  apply (proj1 (parachain_ids_default Demo.default_config Hk Hc) 1002%N). simpl. lia.
Defined.

Lemma normalize_then_initialize_witness :
  (count Demo.keyed_config < 2 ^ 32)%N /\
  normalize Demo.keyed_config = Ok Demo.keyed_config_normalized /\
  exists st, initialize Demo.keyed_config_normalized = Ok st /\ parachain_count st = 2.
Proof.
  assert (Hc : (count Demo.keyed_config < 2 ^ 32)%N) by (simpl; lia).
  assert (Hn : normalize Demo.keyed_config = Ok Demo.keyed_config_normalized)
    by (vm_compute; reflexivity).
  split; [exact Hc |]. split; [exact Hn |].
  exact (normalize_then_initialize Demo.keyed_config Demo.keyed_config_normalized Hc Hn).
Defined.

Lemma run_relay_loop_fifo_witness :
  List.length (channel Demo.world_queued) <= 2 /\
  run_relay_loop 2 Demo.world_queued =
    relay_iteration (relay_iteration (set_channel Demo.world_queued [])
                       (Demo.queued (Some "m1") 2000))
      (Demo.queued (Some "m2") 1000).
Proof.
  assert (Hl : List.length (channel Demo.world_queued) <= 2) by (simpl; lia).
  split; [exact Hl |].
  exact (run_relay_loop_fifo 2 Demo.world_queued Hl).
Defined.

Lemma startup_keys_match_ledgers_witness :
  initialize Demo.default_config = Ok Demo.demo_state /\
  from_config Demo.demo_rng Demo.default_config = Ok Demo.demo_registry /\
  verify_signature Demo.demo_registry 1003 Demo.raw Demo.good_sig = Err (UnknownParachain 1003) /\
  data (parachains Demo.demo_state) !! 1003%N = None.
Proof.
  assert (Hi : initialize Demo.default_config = Ok Demo.demo_state) by (vm_compute; reflexivity).
  assert (Hf : from_config Demo.demo_rng Demo.default_config = Ok Demo.demo_registry)
    by (vm_compute; reflexivity).
  split; [exact Hi |]. split; [exact Hf |].
  assert (Hv : verify_signature Demo.demo_registry 1003 Demo.raw Demo.good_sig
               = Err (UnknownParachain 1003)) by (vm_compute; reflexivity).
  split; [exact Hv |].
  exact (proj1 (proj2 (startup_keys_match_ledgers Demo.demo_rng Demo.default_config
                         Demo.demo_state Demo.demo_registry Hi Hf 1003%N Demo.raw Demo.good_sig))
           Hv).
Defined.
